(** * Evit: the listener registry and the asynchronous dispatch engine

    A shallow embedding of [Event.ts] and of the [DefaultEventEmitter] class
    ([onImpl], [offImpl], [emitImpl] and their aliases), followed by the
    properties of the registry and of the dispatch engine.

    Modelling conventions.
    - JavaScript values are the inductive [Value]; truthiness and strict
      equality are written out.
    - Functions (listeners) are identified by a number; what a listener does
      when it is applied is a parameter [behave] of the development: a
      listener reads and writes the heap of event objects and then returns,
      throws, or returns a promise that rejects.  A promise returned by a
      listener is settled by the time the emission resumes, so that every
      [await] takes one microtask.  Listeners do not call the emitter, and
      the microtasks of [run] are not interleaved with calls of [on] and
      [off]; the properties that depend on this say so.
    - [listenerMap] is the object literal [{}]: its own keys are an
      association list from event names to references, in the order of
      their creation, and [for_in] is the order in which [for ... in]
      visits them; [inherited] tells the names it inherits from
      [Object.prototype], which [this.listenerMap[eventName]] finds as
      well.  The [EventListenerSet] objects live in a store, so that a
      suspended emission and the registry share the same set.
    - A [TypeError] that leaves [on] or [off] is recorded in [thrown], and
      the world is otherwise as it was before the call; inside [emitImpl],
      an [async] function, it rejects the promise.
    - [async]/[await]: calling [emitImpl] runs its body up to the first
      [await] and returns a promise; the rest of the body is a [Frame] in
      the microtask queue, resumed by [step].  A listener that throws is
      caught without an [await] in between, so that the loop goes on in the
      same run. *)

From Stdlib Require Import ZArith NArith Ascii String List Lia Bool.
From stdpp Require Import base list strings.
Import ListNotations.
Open Scope string_scope.
Open Scope list_scope.

(** ** JavaScript values *)

Definition Listener := nat.
Definition loc := nat.

Inductive Value :=
| VUndefined
| VNull
| VBool (b : bool)
| VNum (n : Z)
| VStr (s : string)
| VFun (f : Listener)
| VObj (o : loc)
| VError (kind : string).

#[global] Instance Value_eq_dec : EqDecision Value.
Proof. solve_decision. Defined.

(** [ToBoolean]: what [if (v)], [!v], [a && b] and [c ? x : y] test. *)
Definition truthy (v : Value) : bool :=
  match v with
  | VUndefined | VNull => false
  | VBool b => b
  | VNum n => negb (n =? 0)%Z
  | VStr s => negb (bool_decide (s = ""))
  | VFun _ | VObj _ | VError _ => true
  end.

(** [a === b] *)
Definition strict_eq (a b : Value) : bool := bool_decide (a = b).

(** The error of the engine when a property of [undefined] is read or
    [undefined] is iterated. *)
Definition TypeError : Value := VError "TypeError".

(** An object of the heap.  [isEvent] is [o instanceof Event]; a field the
    object does not have reads as [VUndefined]. *)
Record Obj := mkObj {
  isEvent : bool;
  name : string;
  cancellable : Value;
  cancelled : Value
}.

Definition Heap := list Obj.

(** ** Event.ts *)
Module Event.

(** [that instanceof Event] *)
Definition instanceofEvent (h : Heap) (that : Value) : bool :=
  match that with
  | VObj o => match h !! o with Some ob => isEvent ob | None => false end
  | _ => false
  end.

(** [(<any> that).cancellable] *)
Definition get_cancellable (h : Heap) (that : Value) : Value :=
  match that with
  | VObj o => match h !! o with Some ob => cancellable ob | None => VUndefined end
  | _ => VUndefined
  end.

(** [event.cancelled] *)
Definition get_cancelled (h : Heap) (that : Value) : Value :=
  match that with
  | VObj o => match h !! o with Some ob => cancelled ob | None => VUndefined end
  | _ => VUndefined
  end.

(** [return that instanceof Event && (<any> that).cancellable;] *)
Definition isCancellable (h : Heap) (that : Value) : Value :=
  if instanceofEvent h that then get_cancellable h that else VBool false.

(** [new Event(name)]: the plain class has no [cancellable] field. *)
Definition new (n : string) : Obj := mkObj true n VUndefined VUndefined.

(** An object implementing [CancellableEvent]. *)
Definition newCancellable (n : string) : Obj :=
  mkObj true n (VBool true) (VBool false).

End Event.

(** ** EmitterInterface.ts: [const enum ListenerType { ACTIVE, PASSIVE, EARLY }] *)
Module ListenerType.
Definition ACTIVE : Value := VNum 0.
Definition PASSIVE : Value := VNum 1.
Definition EARLY : Value := VNum 2.
End ListenerType.

(** ** EventEmitter.ts: data *)

(** An element of [set.listeners].  The array of the source holds the
    function only; [tier] is a ghost field recording the value of [type]
    at the insertion, and no operation reads it. *)
Record Entry := mkEntry {
  fn : Listener;
  tier : Value
}.

Record EventListenerSet := mkSet {
  listeners : list Entry;
  passiveIdx : nat
}.

(** What [listener.apply(this, args)] does: it returns (a value, or a
    promise that is fulfilled), it throws, or it returns a promise that
    rejects. *)
Inductive Outcome :=
| Returned
| Threw (v : Value)
| Rejects (v : Value).

(** What [await] delivers when the emission resumes. *)
Inductive Awaited :=
| Fulfilled
| Failed (v : Value).

Inductive PromiseState :=
| Pending
| Resolved (b : bool)
| Rejected (v : Value).

(** The rest of an [emitImpl] body suspended at [await]: the loop is about
    to receive [f_pending] from the listener at [f_idx - 1]. *)
Record Frame := mkFrame {
  f_promise : nat;
  f_name : string;
  f_args : list Value;
  f_event : option Value;
  f_set : loc;
  f_idx : nat;
  f_pending : Awaited
}.

(** One application [listener.apply(this, args)], recorded for the proofs
    in [trace]; [emitted] records the calls of [emitImpl], and the promise
    of the [n]-th call is the [n]-th of [promises]. *)
Record Call := mkCall {
  c_promise : nat;
  c_event : string;
  c_fn : Listener;
  c_args : list Value
}.

Record World := mkWorld {
  listenerMap : list (string * loc);
  sets : list EventListenerSet;
  heap : Heap;
  queue : list Frame;
  promises : list PromiseState;
  emitted : list (string * list Value);
  trace : list Call;
  thrown : list Value
}.

(** [DefaultEventEmitter.initialize]: [object.listenerMap = {}] *)
Definition initialize : World := mkWorld [] [] [] [] [] [] [] [].

(** *** The object used as a map *)

(** The own keys of [listenerMap]. *)
Fixpoint map_get (m : list (string * loc)) (k : string) : option loc :=
  match m with
  | [] => None
  | (k', v) :: m' => if bool_decide (k' = k) then Some v else map_get m' k
  end.

(** [m[k] = v] for a key that may be present: an own key keeps its place,
    a new key comes last. *)
Fixpoint map_set (m : list (string * loc)) (k : string) (v : loc) : list (string * loc) :=
  match m with
  | [] => [(k, v)]
  | (k', v') :: m' =>
      if bool_decide (k' = k) then (k, v) :: m' else (k', v') :: map_set m' k v
  end.

(** [delete m[k]] *)
Fixpoint map_delete (m : list (string * loc)) (k : string) : list (string * loc) :=
  match m with
  | [] => []
  | (k', v') :: m' =>
      if bool_decide (k' = k) then map_delete m' k else (k', v') :: map_delete m' k
  end.

(** The members an object literal inherits from [Object.prototype].
    [m[k]] finds one of them when [m] has no own key [k]: a function (the
    prototype itself for [__proto__]), which is truthy and has no
    [listeners]. *)
Definition Object_prototype : list string :=
  ["constructor"; "__proto__"; "hasOwnProperty"; "isPrototypeOf";
   "propertyIsEnumerable"; "toString"; "toLocaleString"; "valueOf";
   "__defineGetter__"; "__defineSetter__"; "__lookupGetter__";
   "__lookupSetter__"].

Definition inherited (k : string) : bool := existsb (String.eqb k) Object_prototype.

(** The order of [for (const k in m)]: the own keys that are array
    indices, in ascending numeric order, then the other keys in the order
    of their creation.  An array index is the decimal numeral, without a
    leading zero, of a number below [2^32 - 1]. *)
Definition digit (c : ascii) : option N :=
  let n := N_of_ascii c in
  if (48 <=? n)%N && (n <=? 57)%N then Some (n - 48)%N else None.

(** The number a string of decimal digits denotes, after [acc]. *)
Fixpoint numeral (s : string) (acc : N) : option N :=
  match s with
  | EmptyString => Some acc
  | String c s' =>
      match digit c with
      | Some d => numeral s' (10 * acc + d)%N
      | None => None
      end
  end.

(** The array index a property name denotes, if it is one. *)
Definition array_index (k : string) : option N :=
  match k with
  | EmptyString => None
  | String c EmptyString => digit c
  | String c _ =>
      if bool_decide (c = "0"%char) then None
      else match numeral k 0 with
           | Some n => if (n <? 4294967295)%N then Some n else None
           | None => None
           end
  end.

(** The keys that are array indices, sorted by index. *)
Fixpoint insert_index (n : N) (x : string * loc) (l : list (N * (string * loc)))
    : list (N * (string * loc)) :=
  match l with
  | [] => [(n, x)]
  | (n', y) :: l' =>
      if (n <? n')%N then (n, x) :: l else (n', y) :: insert_index n x l'
  end.

Fixpoint index_keys (m : list (string * loc)) : list (N * (string * loc)) :=
  match m with
  | [] => []
  | x :: m' =>
      match array_index (fst x) with
      | Some n => insert_index n x (index_keys m')
      | None => index_keys m'
      end
  end.

(** The own keys in the order of [for ... in]. *)
Definition for_in (m : list (string * loc)) : list (string * loc) :=
  map snd (index_keys m)
  ++ filter (fun x => array_index (fst x) = None) m.

(** *** Array methods *)

(** [a.splice(i, 0, x)]: a start past the end is clamped to the length. *)
Definition splice_insert {A} (i : nat) (x : A) (a : list A) : list A :=
  take i a ++ x :: drop i a.

(** [a.splice(i, 1)] *)
Definition splice_remove {A} (i : nat) (a : list A) : list A :=
  take i a ++ drop (S i) a.

(** [a.indexOf(f)]: the first index holding [f], [None] for [-1]. *)
Fixpoint indexOf (a : list Entry) (f : Listener) : option nat :=
  match a with
  | [] => None
  | e :: a' => if bool_decide (fn e = f) then Some 0 else S <$> indexOf a' f
  end.

(** *** Field updates *)

Definition set_listenerMap (m : list (string * loc)) (w : World) : World :=
  mkWorld m (sets w) (heap w) (queue w) (promises w) (emitted w) (trace w) (thrown w).
Definition set_sets (s : list EventListenerSet) (w : World) : World :=
  mkWorld (listenerMap w) s (heap w) (queue w) (promises w) (emitted w) (trace w) (thrown w).
Definition set_heap (h : Heap) (w : World) : World :=
  mkWorld (listenerMap w) (sets w) h (queue w) (promises w) (emitted w) (trace w) (thrown w).
Definition set_queue (q : list Frame) (w : World) : World :=
  mkWorld (listenerMap w) (sets w) (heap w) q (promises w) (emitted w) (trace w) (thrown w).
Definition set_promises (p : list PromiseState) (w : World) : World :=
  mkWorld (listenerMap w) (sets w) (heap w) (queue w) p (emitted w) (trace w) (thrown w).
Definition set_emitted (e : list (string * list Value)) (w : World) : World :=
  mkWorld (listenerMap w) (sets w) (heap w) (queue w) (promises w) e (trace w) (thrown w).

(** [throw error] out of a method of the emitter: the call is over and
    nothing else has changed. *)
Definition raise (error : Value) (w : World) : World :=
  mkWorld (listenerMap w) (sets w) (heap w) (queue w) (promises w) (emitted w)
          (trace w) (thrown w ++ [error]).

(** The promise [p] is settled. *)
Definition settle (p : nat) (s : PromiseState) (w : World) : World :=
  set_promises (<[p := s]> (promises w)) w.

(** The set object of an event that has an own key in [listenerMap]. *)
Definition get_set (w : World) (eventName : string) : option EventListenerSet :=
  match map_get (listenerMap w) eventName with
  | Some l => sets w !! l
  | None => None
  end.

(** ** EventEmitter.ts: operations *)
Section Emitter.

(** [behave f args h]: the listener [f] applied to [args] in the heap [h]. *)
Variable behave : Listener -> list Value -> Heap -> Outcome * Heap.

(** The array [set.listeners] as it is now. *)
Definition live_listeners (w : World) (set : loc) : list Entry :=
  match sets w !! set with
  | Some s => listeners s
  | None => []
  end.

(** [const first = args[0];
     const event = Event.isCancellable(first) ? first : undefined;] *)
Definition governing_signal (h : Heap) (args : list Value) : option Value :=
  let first := nth 0 args VUndefined in
  if truthy (Event.isCancellable h first) then Some first else None.

(** [event && event.cancelled] *)
Definition cancel_requested (event : option Value) (h : Heap) : bool :=
  match event with
  | Some ev => truthy (Event.get_cancelled h ev)
  | None => false
  end.

(** [!errorSet || errorSet.listeners.length === 0]; ["error"] is no
    inherited name. *)
Definition no_error_listener (w : World) : bool :=
  match map_get (listenerMap w) "error" with
  | None => true
  | Some l => Nat.eqb (length (live_listeners w l)) 0
  end.

(** The listener [e] was applied by the emission [p] and left the heap [h]. *)
Definition record_call (p : nat) (eventName : string) (args : list Value)
    (e : Entry) (h : Heap) (w : World) : World :=
  mkWorld (listenerMap w) (sets w) h (queue w) (promises w) (emitted w)
          (trace w ++ [mkCall p eventName (fn e) args]) (thrown w).

(** [listener.apply(this, args)] *)
Definition apply_listener (p : nat) (eventName : string) (args : list Value)
    (e : Entry) (w : World) : Outcome * World :=
  let '(out, h') := behave (fn e) args (heap w) in
  (out, record_call p eventName args e h' w).

(** The body is suspended at [await]. *)
Definition suspend (f : Frame) (w : World) : World :=
  set_queue (queue w ++ [f]) w.

Section Loop.

(** [funnel error w] stands for [this.emitImpl('error', error)], whose
    promise is dropped. *)
Variable funnel : Value -> World -> World.

(** The [catch] clause: [None] when the error is thrown again, otherwise
    the world after the detached emission of ["error"]. *)
Definition catch (eventName : string) (error : Value) (w : World) : option World :=
  if bool_decide (eventName = "error") || no_error_listener w then None
  else Some (funnel error w).

(** [for (const listener of set.listeners)] from the listeners [rest] on,
    the first of which is at [idx], up to the next [await].  Past the end
    the loop is left and [return true] resolves the promise.  A listener
    that returns suspends the body at [await]; one that throws goes to the
    [catch] clause at once, then to the cancellation test and to the next
    listener. *)
Fixpoint iterate (rest : list Entry) (p : nat) (eventName : string)
    (args : list Value) (event : option Value) (set : loc) (idx : nat)
    (w : World) : World :=
  match rest with
  | [] => settle p (Resolved true) w
  | e :: rest' =>
      let '(out, w) := apply_listener p eventName args e w in
      match out with
      | Returned => suspend (mkFrame p eventName args event set (S idx) Fulfilled) w
      | Rejects error =>
          suspend (mkFrame p eventName args event set (S idx) (Failed error)) w
      | Threw error =>
          match catch eventName error w with
          | None => settle p (Rejected error) w
          | Some w =>
              if cancel_requested event (heap w) then settle p (Resolved true) w
              else iterate rest' p eventName args event set (S idx) w
          end
      end
  end.

(** The head of the loop with the iterator at [idx] of the live array. *)
Definition next_listener (p : nat) (eventName : string) (args : list Value)
    (event : option Value) (set : loc) (idx : nat) (w : World) : World :=
  iterate (drop idx (live_listeners w set)) p eventName args event set idx w.

(** [emitImpl(eventName, ...args)] up to its first [await]; the result is
    the promise of the call.  [this.listenerMap[eventName]] is the set of
    an own key, [undefined] for a name that is neither an own key nor
    inherited, and otherwise an inherited member: it passes [if (!set)],
    its [listeners] is [undefined], and [for (... of undefined)] throws a
    [TypeError], which rejects the promise of the [async] function. *)
Definition emit_with (eventName : string) (args : list Value) (w : World)
    : nat * World :=
  let event := governing_signal (heap w) args in
  let p := length (promises w) in
  let w := set_emitted (emitted w ++ [(eventName, args)])
             (set_promises (promises w ++ [Pending]) w) in
  match map_get (listenerMap w) eventName with
  | None =>
      if inherited eventName then (p, settle p (Rejected TypeError) w)
      else (p, settle p (Resolved false) w)
  | Some set => (p, next_listener p eventName args event set 0 w)
  end.

(** [if (event && event.cancelled) { break; }] and the next iteration. *)
Definition after_listener (f : Frame) (w : World) : World :=
  if cancel_requested (f_event f) (heap w)
  then settle (f_promise f) (Resolved true) w
  else next_listener (f_promise f) (f_name f) (f_args f) (f_event f)
                     (f_set f) (f_idx f) w.

End Loop.

(** [this.emitImpl('error', error)]: an emission of ["error"] throws the
    errors of its listeners again and emits nothing itself. *)
Definition emit_error (error : Value) (w : World) : World :=
  snd (emit_with (fun _ w => w) "error" [error] w).

(** [emitImpl]: the call of itself in the [catch] clause is [emit_error],
    because an emission of ["error"] never reaches that call
    ([emit_error_is_emit] below). *)
Definition emitImpl (eventName : string) (args : list Value) (w : World)
    : nat * World :=
  emit_with emit_error eventName args w.

(** The body of [emitImpl] resumed after [await]: the [catch] clause when
    the promise of the listener rejected, then the cancellation test. *)
Definition resume (f : Frame) (w : World) : World :=
  match f_pending f with
  | Fulfilled => after_listener emit_error f w
  | Failed error =>
      match catch emit_error (f_name f) error w with
      | None => settle (f_promise f) (Rejected error) w
      | Some w => after_listener emit_error f w
      end
  end.

(** One microtask. *)
Definition step (w : World) : option World :=
  match queue w with
  | [] => None
  | f :: q => Some (resume f (set_queue q w))
  end.

(** The microtask queue is drained, at most [fuel] tasks. *)
Fixpoint run (fuel : nat) (w : World) : World :=
  match fuel with
  | 0 => w
  | S fuel' =>
      match step w with
      | None => w
      | Some w' => run fuel' w'
      end
  end.

(** The value of [type] after the default and the legacy workaround. *)
Definition normalize_type (type : Value) : Value :=
  let type := if strict_eq type VUndefined then ListenerType.ACTIVE else type in
  if strict_eq type (VBool true) then ListenerType.EARLY
  else if strict_eq type (VBool false) then ListenerType.ACTIVE
  else type.

(** The [switch (type)] of [onImpl] on an existing set; no case matches
    another value and the set is left as it is. *)
Definition insert_by_type (type : Value) (listener : Listener)
    (s : EventListenerSet) : EventListenerSet :=
  let e := mkEntry listener type in
  if strict_eq type ListenerType.ACTIVE then
    mkSet (splice_insert (passiveIdx s) e (listeners s)) (S (passiveIdx s))
  else if strict_eq type ListenerType.EARLY then
    mkSet (e :: listeners s) (S (passiveIdx s))
  else if strict_eq type ListenerType.PASSIVE then
    mkSet (listeners s ++ [e]) (passiveIdx s)
  else s.

(** A case of the [switch] matches: a method of [set.listeners] is called. *)
Definition switch_matches (type : Value) : bool :=
  strict_eq type ListenerType.ACTIVE || strict_eq type ListenerType.EARLY
  || strict_eq type ListenerType.PASSIVE.

(** [onImpl] before it emits [newListener]; [None] when a [TypeError]
    leaves the method: [set] is an inherited member, whose [listeners] is
    [undefined], and a case of the [switch] calls [splice], [unshift] or
    [push] on it. *)
Definition register (eventName : string) (listener : Listener) (type : Value)
    (w : World) : option World :=
  let type := normalize_type type in
  match map_get (listenerMap w) eventName with
  | None =>
      if inherited eventName then
        if switch_matches type then None else Some w
      else
        let s := mkSet [mkEntry listener type]
                       (if strict_eq type ListenerType.PASSIVE then 0 else 1) in
        Some (set_listenerMap (map_set (listenerMap w) eventName (length (sets w)))
                              (set_sets (sets w ++ [s]) w))
  | Some l =>
      match sets w !! l with
      | Some s => Some (set_sets (<[l := insert_by_type type listener s]> (sets w)) w)
      | None => Some w
      end
  end.

(** The emitter after [onImpl(eventName, listener, type)], whether the
    call returned or threw. *)
Definition onImpl (eventName : string) (listener : Listener) (type : Value)
    (w : World) : World :=
  match register eventName listener type w with
  | Some w => snd (emitImpl "newListener" [VStr eventName; VFun listener] w)
  | None => raise TypeError w
  end.

Definition addPassiveListenerImpl (eventName : string) (listener : Listener)
    (w : World) : World :=
  onImpl eventName listener ListenerType.PASSIVE w.

Definition prependListenerImpl (eventName : string) (listener : Listener)
    (w : World) : World :=
  onImpl eventName listener (VBool true) w.

(** [for (i = 0; i < listeners.length; ++i)
      this.emitImpl('removeListener', event, listeners[i]);] *)
Definition emit_removed (event : string) (ls : list Entry) (w : World) : World :=
  fold_left
    (fun w e => snd (emitImpl "removeListener" [VStr event; VFun (fn e)] w))
    ls w.

(** [!eventName]: the argument is left out or is the empty string. *)
Definition no_event_name (eventName : option string) : bool :=
  match eventName with
  | None => true
  | Some s => negb (truthy (VStr s))
  end.

(** The first branch of [offImpl]: [for (const event in this.listenerMap)]
    emits [removeListener] for every listener of every event, then
    [this.listenerMap = {}].  The members inherited from
    [Object.prototype] are not enumerable. *)
Definition remove_all (w : World) : World :=
  set_listenerMap []
    (fold_left (fun w '(event, l) => emit_removed event (live_listeners w l) w)
               (for_in (listenerMap w)) w).

(** The second branch: all the listeners of one event.  For an inherited
    member [set.listeners] is [undefined] and [listeners.length] throws. *)
Definition remove_event (ev : string) (w : World) : World :=
  match map_get (listenerMap w) ev with
  | None => if inherited ev then raise TypeError w else w
  | Some l =>
      let w := emit_removed ev (live_listeners w l) w in
      set_listenerMap (map_delete (listenerMap w) ev) w
  end.

(** [set.listeners.splice(index, 1)] on the set object [l]; [passiveIdx]
    is as it was. *)
Definition splice_out (l : loc) (index : nat) (w : World) : World :=
  match sets w !! l with
  | Some s =>
      set_sets (<[l := mkSet (splice_remove index (listeners s)) (passiveIdx s)]>
                  (sets w)) w
  | None => w
  end.

(** What [offImpl] does once [removeListener] is emitted, on the set as it
    is then:
    [if (set.listeners.length === 0) { delete this.listenerMap[eventName]; }
     else if (index < set.passiveIdx) { --set.passiveIdx; }] *)
Definition fix_up (ev : string) (l : loc) (index : nat) (w : World) : World :=
  match sets w !! l with
  | Some s =>
      if Nat.eqb (length (listeners s)) 0 then
        set_listenerMap (map_delete (listenerMap w) ev) w
      else if Nat.ltb index (passiveIdx s) then
        set_sets (<[l := mkSet (listeners s) (Nat.pred (passiveIdx s))]> (sets w)) w
      else w
  | None => w
  end.

(** The last branch: one listener of one event.  For an inherited member
    [set.listeners.indexOf] throws.  The listener is spliced out, then
    [removeListener] is emitted, then the set is put in order. *)
Definition remove_listener (ev : string) (f : Listener) (w : World) : World :=
  match map_get (listenerMap w) ev with
  | None => if inherited ev then raise TypeError w else w
  | Some l =>
      match sets w !! l with
      | None => w
      | Some s =>
          match indexOf (listeners s) f with
          | None => w
          | Some index =>
              fix_up ev l index
                (snd (emitImpl "removeListener" [VStr ev; VFun f]
                        (splice_out l index w)))
          end
      end
  end.

Definition offImpl (eventName : option string) (listener : option Listener)
    (w : World) : World :=
  match eventName, listener with
  | None, _ => remove_all w
  | Some ev, None =>
      if no_event_name eventName then remove_all w else remove_event ev w
  | Some ev, Some f =>
      if no_event_name eventName then remove_all w else remove_listener ev f w
  end.

End Emitter.

(** ** Listeners used in the examples *)

(** What a listener of the examples does when it is applied. *)
Inductive Action :=
| Return
| Throw (v : Value)
| Reject (v : Value)
| Cancel
| CancelThrow (v : Value).

(** [args[0].cancelled = true] *)
Definition set_cancelled (h : Heap) (args : list Value) : Heap :=
  match nth 0 args VUndefined with
  | VObj o =>
      match h !! o with
      | Some ob => <[o := mkObj (isEvent ob) (name ob) (cancellable ob) (VBool true)]> h
      | None => h
      end
  | _ => h
  end.

Definition perform (a : Action) (args : list Value) (h : Heap) : Outcome * Heap :=
  match a with
  | Return => (Returned, h)
  | Throw v => (Threw v, h)
  | Reject v => (Rejects v, h)
  | Cancel => (Returned, set_cancelled h args)
  | CancelThrow v => (Threw v, set_cancelled h args)
  end.

(** The listeners of a script: listener [n] does the [n]-th action, and
    returns when the script is shorter. *)
Definition scripted (script : list Action) : Listener -> list Value -> Heap -> Outcome * Heap :=
  fun f args h => perform (nth f script Return) args h.

(** Every listener returns at once. *)
Definition quiet : Listener -> list Value -> Heap -> Outcome * Heap :=
  scripted [].

(** The functions applied so far, oldest first. *)
Definition called (w : World) : list Listener := map c_fn (trace w).

(** The functions applied by the emission with promise [p], oldest first. *)
Definition called_by (p : nat) (w : World) : list Listener :=
  map c_fn (filter (fun c => c_promise c = p) (trace w)).

(** ** Predicates of the registry *)

(** The entry went in as anything but [ListenerType.PASSIVE]. *)
Definition non_passive (e : Entry) : bool :=
  negb (strict_eq (tier e) ListenerType.PASSIVE).

(** The invariant of one [EventListenerSet]. *)
Definition good_set (s : EventListenerSet) : Prop :=
  passiveIdx s = length (filter (fun e => non_passive e = true) (listeners s))
  /\ (forall i e, listeners s !! i = Some e ->
        (i < passiveIdx s -> non_passive e = true)
        /\ (passiveIdx s <= i -> non_passive e = false))
  /\ listeners s <> [].

(** Every name of the registry refers to a set of the store, and that set
    is good. *)
Definition sets_ok (w : World) : Prop :=
  forall ev l, map_get (listenerMap w) ev = Some l ->
    exists s, sets w !! l = Some s /\ good_set s.

(** Two names never share one set object. *)
Definition separate (w : World) : Prop :=
  forall ev ev' l, map_get (listenerMap w) ev = Some l ->
    map_get (listenerMap w) ev' = Some l -> ev = ev'.

(** The invariant of the registry. *)
Definition registry_ok (w : World) : Prop := sets_ok w /\ separate w.

(** The functions registered for an event, in the order of the array. *)
Definition listeners_of (w : World) (eventName : string) : list Listener :=
  match get_set w eventName with
  | Some s => map fn (listeners s)
  | None => []
  end.

(** The tiers [on] documents: the enumeration, the legacy booleans and the
    argument left out. *)
Definition valid_type (type : Value) : bool :=
  strict_eq type VUndefined
  || strict_eq type ListenerType.ACTIVE || strict_eq type ListenerType.EARLY
  || strict_eq type ListenerType.PASSIVE
  || strict_eq type (VBool true) || strict_eq type (VBool false).


(** The same invariant as a partition: a block of non-passive entries of
    length [passiveIdx], then a block of passive ones. *)
Definition tiered (s : EventListenerSet) : Prop :=
  exists front back,
    listeners s = front ++ back
    /\ passiveIdx s = length front
    /\ Forall (fun e => non_passive e = true) front
    /\ Forall (fun e => non_passive e = false) back.


(** A sequence of [on]-style calls for one event name. *)
Definition register_all (behave : Listener -> list Value -> Heap -> Outcome * Heap)
    (eventName : string) (calls : list (Listener * Value)) (w : World) : World :=
  fold_left (fun w c => onImpl behave eventName (fst c) (snd c) w) calls w.

(** *** A bound on the microtasks still to run *)

(** The listeners a suspended emission has not reached yet. *)
Definition remaining (w : World) (f : Frame) : nat :=
  length (live_listeners w (f_set f)) - f_idx f.

(** The number of listeners of ["error"]. *)
Definition error_count (w : World) : nat :=
  match map_get (listenerMap w) "error" with
  | Some l => length (live_listeners w l)
  | None => 0
  end.

(** The microtasks one listener of an emission of [eventName] can cause:
    the one that resumes the emission and, unless the event is ["error"],
    those of a detached emission of ["error"], which itself emits nothing
    further. *)
Definition cost (w : World) (eventName : string) : nat :=
  if bool_decide (eventName = "error") then 1 else S (error_count w).

(** The microtasks a frame can still cause. *)
Definition weight (w : World) (f : Frame) : nat :=
  S (remaining w f) * cost w (f_name f).

Definition fuel_bound (w : World) : nat :=
  sum_list_with (weight w) (queue w).

(** No frame of the queue belongs to the promise [p], and [p] is a promise
    that exists. *)
Definition finished (p : nat) (w : World) : Prop :=
  p < length (promises w) /\ Forall (fun f => f_promise f <> p) (queue w).

(** *** What a microtask of the emission with promise [fp] may change

    From [w] to [w']: the registry is the same; the frames and the calls
    added belong to [fp] (the frames keep the event name [nm]) or to
    emissions started meanwhile; no other promise of [w] changes; and a
    promise of [w] that changes is resolved with [true] or rejected. *)
Definition effect (fp : nat) (nm : string) (w w' : World) : Prop :=
  (listenerMap w' = listenerMap w /\ sets w' = sets w)
  /\ (exists qx, queue w' = queue w ++ qx
     /\ Forall (fun g => (f_promise g = fp /\ f_name g = nm)
                         \/ length (promises w) <= f_promise g
                                                < length (promises w')) qx)
  /\ (exists tx, trace w' = trace w ++ tx
       /\ Forall (fun c => c_promise c = fp
                           \/ length (promises w) <= c_promise c
                                                  < length (promises w')) tx)
  /\ length (promises w) <= length (promises w')
  /\ (forall p, p < length (promises w) -> p <> fp ->
        promises w' !! p = promises w !! p)
  /\ (forall p, p < length (promises w) ->
        promises w' !! p = promises w !! p
        \/ promises w' !! p = Some (Resolved true)
        \/ exists v, promises w' !! p = Some (Rejected v)).

(** The promise [p] exists and, while it is pending, a frame of the queue
    will settle it. *)
Definition in_flight (p : nat) (w : World) : Prop :=
  p < length (promises w)
  /\ (promises w !! p = Some Pending ->
      exists f, f ∈ queue w /\ f_promise f = p).




(** *** The scenarios *)

Definition boom : Value := VStr "boom".

(** Scenario B: a passive, then an active, then an early listener. *)
Definition calls_B : list (Listener * Value) :=
  [(1, ListenerType.PASSIVE); (2, VUndefined); (3, VBool true)].

(** Scenarios C and D: listener 0 throws, listeners 1 and 2 return. *)
Definition throws_first : Listener -> list Value -> Heap -> Outcome * Heap :=
  scripted [Throw boom; Return; Return].

(** Listener 0 returns a promise that rejects. *)
Definition rejects_first : Listener -> list Value -> Heap -> Outcome * Heap :=
  scripted [Reject boom; Return; Return].

(** Listeners 0 and 1 on ["x"]. *)
Definition two_on_x (behave : Listener -> list Value -> Heap -> Outcome * Heap)
    (w : World) : World :=
  onImpl behave "x" 1 VUndefined (onImpl behave "x" 0 VUndefined w).

(** Scenario C: no listener of ["error"]. *)
Definition world_C : World := two_on_x throws_first initialize.

(** Scenario D: listener 2 on ["error"]. *)
Definition world_D : World := onImpl throws_first "error" 2 VUndefined world_C.

(** Scenario E: listener 0 cancels the signal, which is object 0. *)
Definition cancels_first : Listener -> list Value -> Heap -> Outcome * Heap :=
  scripted [Cancel; Return].

Definition world_E : World :=
  two_on_x cancels_first (set_heap [Event.newCancellable "x"] initialize).



(** The signal is cancelled before [emit]; listener 0 throws. *)
Definition world_G : World :=
  two_on_x throws_first
    (set_heap [mkObj true "x" (VBool true) (VBool true)] initialize).


(** An instance of [Event] whose [cancellable] is the number 1. *)
Definition heap_one : Heap := [mkObj true "x" (VNum 1) (VBool false)].

(** The [removeListener] emissions of a log. *)
Definition removals (log : list (string * list Value)) : list (string * list Value) :=
  filter (fun x => fst x = "removeListener") log.

(** The frames and the calls of a world belong to promises that exist. *)
Definition world_ok (w : World) : Prop :=
  Forall (fun g => f_promise g < length (promises w)) (queue w)
  /\ Forall (fun c => c_promise c < length (promises w)) (trace w).

(** The emission with promise [p] over the set [l], whose array holds the
    functions [ls], has applied the first [k] of them, in order, and is
    suspended before the next or over. *)
Definition on_track (p : nat) (l : loc) (ls : list Listener) (w : World) : Prop :=
  p < length (promises w)
  /\ map fn (live_listeners w l) = ls
  /\ exists k,
       called_by p w = take k ls
       /\ ((exists q1 g q2,
              queue w = q1 ++ g :: q2
              /\ f_promise g = p /\ f_set g = l /\ f_idx g = k
              /\ Forall (fun h => f_promise h <> p) q1
              /\ Forall (fun h => f_promise h <> p) q2)
           \/ Forall (fun h => f_promise h <> p) (queue w)).

(** *** Further notions *)



(** The frames of the emission with promise [p] in a queue. *)
Definition frames_of (p : nat) (q : list Frame) : list Frame :=
  filter (fun g => f_promise g = p) q.

(** The emission with promise [p] of [ev] with [args], which has no
    governing signal, is delivering to the listeners [ls] of the set [l]:
    it is suspended after the first [k] of them, each of which returned,
    or it has applied them all and has resolved [true]. *)
Definition delivering (p : nat) (ev : string) (args : list Value) (l : loc)
    (ls : list Listener) (w : World) : Prop :=
  p < length (promises w)
  /\ map fn (live_listeners w l) = ls
  /\ ((exists k q1 q2,
         queue w = q1 ++ mkFrame p ev args None l k Fulfilled :: q2
         /\ called_by p w = take k ls
         /\ Forall (fun h => f_promise h <> p) q1
         /\ Forall (fun h => f_promise h <> p) q2)
      \/ (Forall (fun h => f_promise h <> p) (queue w)
          /\ called_by p w = ls
          /\ promises w !! p = Some (Resolved true))).

(** Two listeners of ["x"], one of ["y"]. *)
Definition world_XY : World :=
  onImpl quiet "y" 3 VUndefined
    (onImpl quiet "x" 2 ListenerType.PASSIVE (onImpl quiet "x" 1 VUndefined initialize)).


(** The frames and the calls of the emission with promise [p] carry the
    event name and the arguments of the call of [emit]. *)
Definition uniform (p : nat) (ev : string) (args : list Value) (w : World) : Prop :=
  p < length (promises w)
  /\ Forall (fun g => f_promise g = p -> f_name g = ev /\ f_args g = args) (queue w)
  /\ Forall (fun c => c_promise c = p -> c_event c = ev /\ c_args c = args) (trace w).

(** The active listener 1 and the passive listener 2 on ["x"], listener
    5 on ["removeListener"]. *)
Definition world_R : World :=
  onImpl quiet "removeListener" 5 VUndefined
    (addPassiveListenerImpl quiet "x" 2 (onImpl quiet "x" 1 VUndefined initialize)).

(** The [catch] clause throws the error of a listener of [ev] again. *)
Definition rethrows (ev : string) (w : World) : bool :=
  bool_decide (ev = "error") || no_error_listener w.

(** One of the listeners [ls] throws [v], or returns a promise that
    rejects with [v], when it is applied to [args]. *)
Definition thrown_by (behave : Listener -> list Value -> Heap -> Outcome * Heap)
    (ls : list Listener) (args : list Value) (v : Value) : Prop :=
  exists f h, f ∈ ls
    /\ (fst (behave f args h) = Threw v \/ fst (behave f args h) = Rejects v).

(** A frame of the emission with promise [p] of [ev] with [args] over
    the set [l]: the error it is about to receive comes from one of the
    listeners [ls]. *)
Definition frame_accounted (behave : Listener -> list Value -> Heap -> Outcome * Heap)
    (p : nat) (ev : string) (args : list Value) (l : loc) (ls : list Listener)
    (g : Frame) : Prop :=
  f_promise g = p ->
  f_name g = ev /\ f_args g = args /\ f_set g = l
  /\ forall v, f_pending g = Failed v -> thrown_by behave ls args v.


(** From [w] to [w'] the registry is the same, the frames added are
    accounted for, and so is a rejection of [p] that [w] did not have. *)
Definition accounted_ext (behave : Listener -> list Value -> Heap -> Outcome * Heap)
    (p : nat) (ev : string) (args : list Value) (l : loc) (ls : list Listener)
    (w w' : World) : Prop :=
  (listenerMap w' = listenerMap w /\ sets w' = sets w)
  /\ length (promises w) <= length (promises w')
  /\ (exists qx, queue w' = queue w ++ qx
        /\ Forall (frame_accounted behave p ev args l ls) qx)
  /\ (forall v, promises w' !! p = Some (Rejected v) ->
        promises w !! p = Some (Rejected v)
        \/ (rethrows ev w = true /\ thrown_by behave ls args v)).


(** The signal is cancelled before [emit]; listener 0 throws and
    listener 2 is on ["error"]. *)
Definition world_I : World := onImpl throws_first "error" 2 VUndefined world_G.


(** ** The map and the arrays *)

(** The events of the emitter itself are no inherited names. *)
Lemma inherited_error : inherited "error" = false.
Proof. reflexivity. Qed.

Lemma inherited_newListener : inherited "newListener" = false.
Proof. reflexivity. Qed.

Lemma inherited_removeListener : inherited "removeListener" = false.
Proof. reflexivity. Qed.

Lemma map_get_set_eq m k v : map_get (map_set m k v) k = Some v.
Proof.
  induction m as [|[k' v'] m IH]; simpl.
  - by rewrite bool_decide_eq_true_2.
  - case_bool_decide as Hk; simpl.
    + by rewrite bool_decide_eq_true_2.
    + by rewrite bool_decide_eq_false_2.
Qed.

Lemma map_get_set_ne m k k' v : k <> k' -> map_get (map_set m k v) k' = map_get m k'.
Proof.
  intros Hne. induction m as [|[k0 v0] m IH]; simpl.
  - by rewrite bool_decide_eq_false_2.
  - case_bool_decide as Hk; simpl.
    + subst k0. by rewrite !bool_decide_eq_false_2.
    + by rewrite IH.
Qed.

Lemma map_get_delete_eq m k : map_get (map_delete m k) k = None.
Proof.
  induction m as [|[k0 v0] m IH]; simpl; [done|].
  case_bool_decide as Hk; simpl; [done|].
  by rewrite bool_decide_eq_false_2.
Qed.

Lemma map_get_delete_ne m k k' : k <> k' -> map_get (map_delete m k) k' = map_get m k'.
Proof.
  intros Hne. induction m as [|[k0 v0] m IH]; simpl; [done|].
  case_bool_decide as Hk; simpl.
  - subst k0. by rewrite bool_decide_eq_false_2.
  - by rewrite IH.
Qed.

Lemma map_get_elem m k l : map_get m k = Some l -> (k, l) ∈ m.
Proof.
  induction m as [|[k0 v0] m IH]; simpl; [done|].
  case_bool_decide as Hk.
  - intros [= ->]. subst. apply list_elem_of_here.
  - intros H. apply list_elem_of_further. auto.
Qed.

Lemma indexOf_lookup a f i :
  indexOf a f = Some i -> exists e, a !! i = Some e /\ fn e = f.
Proof.
  revert i. induction a as [|e a IH]; intros i; simpl; [done|].
  case_bool_decide as Hf.
  - intros [= <-]. by exists e.
  - destruct (indexOf a f) as [j|] eqn:Hj; simpl; [|done].
    intros [= <-]. simpl. by apply IH.
Qed.

Lemma filter_all {A} (P : A -> Prop) `{!forall x, Decision (P x)} (l : list A) :
  Forall P l -> filter P l = l.
Proof.
  induction 1 as [|x l Hx _ IH]; [done|].
  by rewrite filter_cons_True, IH.
Qed.

Lemma filter_none {A} (P : A -> Prop) `{!forall x, Decision (P x)} (l : list A) :
  Forall (fun x => ~ P x) l -> filter P l = [].
Proof.
  induction 1 as [|x l Hx _ IH]; [done|].
  by rewrite filter_cons_False.
Qed.



(** ** The invariant of a set *)

Lemma tiered_good s : tiered s -> listeners s <> [] -> good_set s.
Proof.
  intros (front & back & Hl & Hp & Hf & Hb) Hne. split; [|split; [|done]].
  - rewrite Hl, filter_app, (filter_all _ front), (filter_none _ back), app_nil_r;
      [done| |done].
    eapply Forall_impl; [exact Hb|]. simpl. intros e He. by rewrite He.
  - intros i e H. split; intros Hi.
    + rewrite Hl, lookup_app_l in H by lia.
      rewrite Forall_lookup in Hf. eauto.
    + rewrite Hl, lookup_app_r in H by lia.
      rewrite Forall_lookup in Hb. eauto.
Qed.

Lemma good_tiered s : good_set s -> tiered s.
Proof.
  intros (Hp & Hi & _).
  assert (passiveIdx s <= length (listeners s)) as Hle
    by (rewrite Hp; apply length_filter).
  exists (take (passiveIdx s) (listeners s)), (drop (passiveIdx s) (listeners s)).
  repeat split.
  - by rewrite take_drop.
  - rewrite length_take. lia.
  - apply Forall_lookup. intros i e He.
    pose proof (lookup_lt_Some _ _ _ He) as Hlt. rewrite length_take in Hlt.
    rewrite lookup_take_lt in He by lia. apply (Hi i e He). lia.
  - apply Forall_lookup. intros i e He. rewrite lookup_drop in He.
    apply (Hi _ e He). lia.
Qed.

Lemma tiered_insert type f s : tiered s -> tiered (insert_by_type type f s).
Proof.
  intros (front & back & Hl & Hp & Hf & Hb). unfold insert_by_type, strict_eq.
  repeat case_bool_decide; subst.
  - exists (front ++ [mkEntry f ListenerType.ACTIVE]), back. simpl.
    unfold splice_insert. rewrite Hl, Hp, take_app_length, drop_app_length.
    rewrite <- app_assoc, length_app. simpl. repeat split; [lia| |done].
    apply Forall_app. split; [done|]. by repeat constructor.
  - exists (mkEntry f ListenerType.EARLY :: front), back. simpl.
    rewrite Hl, Hp. repeat split; [|done]. by constructor.
  - exists front, (back ++ [mkEntry f ListenerType.PASSIVE]). simpl.
    rewrite Hl, <- app_assoc. repeat split; [done..|].
    apply Forall_app. split; [done|]. by repeat constructor.
  - by exists front, back.
Qed.

Lemma insert_by_type_nonempty type f s :
  listeners s <> [] -> listeners (insert_by_type type f s) <> [].
Proof.
  unfold insert_by_type, splice_insert. intros Hne.
  repeat case_match; simpl; try done.
  - intros Hnil. apply app_eq_nil in Hnil as [_ Hnil]. done.
  - intros Hnil. apply app_eq_nil in Hnil as [Hnil _]. done.
Qed.

Lemma good_insert type f s : good_set s -> good_set (insert_by_type type f s).
Proof.
  intros Hg. apply tiered_good.
  - by apply tiered_insert, good_tiered.
  - apply insert_by_type_nonempty. apply Hg.
Qed.

Lemma good_singleton type f :
  good_set (mkSet [mkEntry f type]
                  (if strict_eq type ListenerType.PASSIVE then 0 else 1)).
Proof.
  apply tiered_good; [|done].
  destruct (strict_eq type ListenerType.PASSIVE) eqn:Ht.
  - exists [], [mkEntry f type]. repeat split; [done|].
    repeat constructor. unfold non_passive. simpl. by rewrite Ht.
  - exists [mkEntry f type], []. repeat split; [|done].
    repeat constructor. unfold non_passive. simpl. by rewrite Ht.
Qed.

Lemma tiered_remove s index :
  tiered s ->
  index < length (listeners s) ->
  tiered (mkSet (splice_remove index (listeners s))
                (if Nat.ltb index (passiveIdx s) then Nat.pred (passiveIdx s)
                 else passiveIdx s)).
Proof.
  intros (front & back & Hl & Hp & Hf & Hb) Hi. unfold splice_remove. simpl.
  rewrite Hl, Hp. destruct (Nat.ltb_spec index (length front)) as [Hlt|Hge].
  - exists (take index front ++ drop (S index) front), back. simpl.
    rewrite (take_app_le front back index) by lia.
    rewrite (drop_app_le front back (S index)) by lia.
    rewrite length_app, length_take, length_drop.
    repeat split; [by rewrite app_assoc|lia| |done].
    apply Forall_app; split; [by apply Forall_take|by apply Forall_drop].
  - exists front, (take (index - length front) back
                   ++ drop (S index - length front) back). simpl.
    rewrite (take_app_ge front back index) by lia.
    rewrite (drop_app_ge front back (S index)) by lia.
    repeat split; [by rewrite app_assoc|done|].
    apply Forall_app; split; [by apply Forall_take|by apply Forall_drop].
Qed.

(** ** What an emission changes *)

Ltac effect_split := split; [|split; [|split; [|split; [|split]]]].

Lemma effect_refl fp nm w : effect fp nm w w.
Proof.
  effect_split; try (exists []; by rewrite app_nil_r); auto.
Qed.

Lemma effect_trans fp nm w1 w2 w3 :
  effect fp nm w1 w2 -> effect fp nm w2 w3 -> effect fp nm w1 w3.
Proof.
  intros ([Hm1 Hr1] & (q1 & Hq1 & Hf1) & (t1 & Ht1 & Hc1) & Hl1 & Ho1 & Hs1)
         ([Hm2 Hr2] & (q2 & Hq2 & Hf2) & (t2 & Ht2 & Hc2) & Hl2 & Ho2 & Hs2).
  effect_split.
  - split; congruence.
  - exists (q1 ++ q2). rewrite Hq2, Hq1, app_assoc. split; [done|].
    apply Forall_app. split.
    + eapply Forall_impl; [exact Hf1|]. simpl. intros g [?|?]; [by left|right; lia].
    + eapply Forall_impl; [exact Hf2|]. simpl. intros g [?|?]; [by left|right; lia].
  - exists (t1 ++ t2). rewrite Ht2, Ht1, app_assoc. split; [done|].
    apply Forall_app. split.
    + eapply Forall_impl; [exact Hc1|]. simpl. intros c [?|?]; [by left|right; lia].
    + eapply Forall_impl; [exact Hc2|]. simpl. intros c [?|?]; [by left|right; lia].
  - lia.
  - intros p Hp Hne. rewrite Ho2, Ho1 by (try done; lia). done.
  - intros p Hp. destruct (Hs2 p) as [Heq|Hset]; [lia| |by right].
    rewrite Heq. by apply Hs1.
Qed.

Lemma settle_effect fp nm s w :
  s = Resolved true \/ (exists v, s = Rejected v) ->
  effect fp nm w (settle fp s w).
Proof.
  intros Hs. unfold settle. effect_split; simpl.
  - done.
  - exists []. by rewrite app_nil_r.
  - exists []. by rewrite app_nil_r.
  - by rewrite length_insert.
  - intros p Hp Hne. by rewrite list_lookup_insert_ne.
  - intros p Hp. destruct (decide (fp = p)) as [->|Hne].
    + right. rewrite list_lookup_insert_eq by done.
      destruct Hs as [->|[v ->]]; eauto.
    + left. by rewrite list_lookup_insert_ne.
Qed.

Lemma record_call_effect fp nm args e h w :
  effect fp nm w (record_call fp nm args e h w).
Proof.
  effect_split; simpl; auto.
  - exists []. by rewrite app_nil_r.
  - eexists. split; [done|]. constructor; [by left|constructor].
Qed.

Lemma suspend_effect f w : effect (f_promise f) (f_name f) w (suspend f w).
Proof.
  effect_split; simpl; auto.
  - eexists. split; [done|]. constructor; [by left|constructor].
  - exists []. by rewrite app_nil_r.
Qed.

Section Loop_effect.

Variable behave : Listener -> list Value -> Heap -> Outcome * Heap.
Variable funnel : Value -> World -> World.
Hypothesis funnel_effect : forall fp nm error w, effect fp nm w (funnel error w).

Lemma apply_listener_effect fp nm args e w :
  effect fp nm w (snd (apply_listener behave fp nm args e w)).
Proof.
  unfold apply_listener. destruct (behave (fn e) args (heap w)) as [out h'].
  apply record_call_effect.
Qed.

Lemma catch_effect fp nm ev error w w' :
  catch funnel ev error w = Some w' -> effect fp nm w w'.
Proof.
  unfold catch. case_match; [done|]. intros [= <-]. apply funnel_effect.
Qed.

Lemma iterate_effect fp nm args event set rest : forall idx w,
  effect fp nm w (iterate behave funnel rest fp nm args event set idx w).
Proof.
  induction rest as [|e rest IH]; intros idx w; simpl.
  - apply settle_effect. by left.
  - pose proof (apply_listener_effect fp nm args e w) as Hcall.
    destruct (apply_listener behave fp nm args e w) as [out w1]. simpl in Hcall.
    eapply effect_trans; [exact Hcall|]. destruct out as [|error|error].
    + apply (suspend_effect (mkFrame fp nm args event set (S idx) Fulfilled)).
    + destruct (catch funnel nm error w1) as [w2|] eqn:Hcatch.
      * eapply effect_trans; [by eapply catch_effect|].
        destruct (cancel_requested event (heap w2)); [|apply IH].
        apply settle_effect. by left.
      * apply settle_effect. right. by eexists.
    + apply (suspend_effect (mkFrame fp nm args event set (S idx) (Failed error))).
Qed.

Lemma next_listener_effect fp nm args event set idx w :
  effect fp nm w (next_listener behave funnel fp nm args event set idx w).
Proof. apply iterate_effect. Qed.

Lemma after_listener_effect f w :
  effect (f_promise f) (f_name f) w (after_listener behave funnel f w).
Proof.
  unfold after_listener. destruct (cancel_requested (f_event f) (heap w)).
  - apply settle_effect. by left.
  - apply next_listener_effect.
Qed.

(** An emission started now belongs to none of the promises there are. *)
Lemma emit_with_effect fp nm ev args w :
  effect fp nm w (snd (emit_with behave funnel ev args w)).
Proof.
  unfold emit_with.
  set (w1 := set_emitted _ _).
  assert (length (promises w1) = S (length (promises w))) as Hlen
    by (subst w1; simpl; rewrite length_app; simpl; lia).
  assert (forall p0, p0 < length (promises w) ->
            promises w1 !! p0 = promises w !! p0) as Hold
    by (intros p0 Hp0; subst w1; simpl; by rewrite lookup_app_l).
  assert (queue w1 = queue w) as Hq1 by done.
  assert (trace w1 = trace w) as Ht1 by done.
  assert (listenerMap w1 = listenerMap w) as Hm1 by done.
  assert (sets w1 = sets w) as Hs1 by done.
  clearbody w1.
  destruct (map_get (listenerMap w1) ev) as [l|]; simpl.
  - destruct (next_listener_effect (length (promises w)) ev args
                (governing_signal (heap w) args) l 0 w1)
      as ([Hm2 Hr2] & (q2 & Hq2 & Hf2) & (t2 & Ht2 & Hc2) & Hl2 & Ho2 & Hs2).
    effect_split.
    + split; congruence.
    + exists q2. rewrite Hq2, Hq1. split; [done|].
      eapply Forall_impl; [exact Hf2|]. simpl.
      intros g [[? _]|?]; right; lia.
    + exists t2. rewrite Ht2, Ht1. split; [done|].
      eapply Forall_impl; [exact Hc2|]. simpl.
      intros c [?|?]; right; lia.
    + lia.
    + intros p0 Hp0 _. rewrite Ho2 by lia. by apply Hold.
    + intros p0 Hp0. left. rewrite Ho2 by lia. by apply Hold.
  - (* the promise of this very call is settled *)
    assert (forall st, effect fp nm w (settle (length (promises w)) st w1))
      as Hsettle.
    { intros st. unfold settle. effect_split; simpl.
      + done.
      + exists []. by rewrite app_nil_r.
      + exists []. by rewrite app_nil_r.
      + rewrite length_insert. lia.
      + intros p0 Hp0 _.
        rewrite list_lookup_insert_ne by lia. by apply Hold.
      + intros p0 Hp0. left.
        rewrite list_lookup_insert_ne by lia. by apply Hold. }
    destruct (inherited ev); apply Hsettle.
Qed.

End Loop_effect.

Section Engine_effect.

Variable behave : Listener -> list Value -> Heap -> Outcome * Heap.

Lemma emit_error_effect fp nm error w : effect fp nm w (emit_error behave error w).
Proof. apply emit_with_effect. intros. apply effect_refl. Qed.

Lemma emitImpl_effect fp nm ev args w :
  effect fp nm w (snd (emitImpl behave ev args w)).
Proof. apply emit_with_effect. apply emit_error_effect. Qed.

Lemma resume_effect f w :
  effect (f_promise f) (f_name f) w (resume behave f w).
Proof.
  unfold resume. destruct (f_pending f) as [|error].
  - apply after_listener_effect, emit_error_effect.
  - destruct (catch (emit_error behave) (f_name f) error w) as [w'|] eqn:Hcatch.
    + eapply effect_trans.
      * eapply catch_effect; [apply emit_error_effect|exact Hcatch].
      * apply after_listener_effect, emit_error_effect.
    + apply settle_effect. right. by eexists.
Qed.

Lemma emitImpl_promise ev args w :
  fst (emitImpl behave ev args w) = length (promises w).
Proof.
  unfold emitImpl, emit_with. simpl.
  destruct (map_get (listenerMap w) ev); [done|]. by destruct (inherited ev).
Qed.

Lemma emitImpl_registry ev args w :
  listenerMap (snd (emitImpl behave ev args w)) = listenerMap w
  /\ sets (snd (emitImpl behave ev args w)) = sets w.
Proof. apply (emitImpl_effect 0 "" ev args w). Qed.

(** The last branch of [offImpl] when the listeners leave the registry
    alone: the set found before the emission is the set found after it. *)
Lemma remove_one_eq ev f l s index w :
  sets w !! l = Some s ->
  fix_up ev l index
    (snd (emitImpl behave "removeListener" [VStr ev; VFun f] (splice_out l index w)))
  = let s' := mkSet (splice_remove index (listeners s)) (passiveIdx s) in
    let w := set_sets (<[l := s']> (sets w)) w in
    let w := snd (emitImpl behave "removeListener" [VStr ev; VFun f] w) in
    if Nat.eqb (length (listeners s')) 0 then
      set_listenerMap (map_delete (listenerMap w) ev) w
    else if Nat.ltb index (passiveIdx s') then
      set_sets (<[l := mkSet (listeners s') (Nat.pred (passiveIdx s'))]> (sets w)) w
    else w.
Proof.
  intros Hs. unfold splice_out, fix_up. rewrite Hs. simpl.
  destruct (emitImpl_registry "removeListener" [VStr ev; VFun f]
              (set_sets (<[l := mkSet (splice_remove index (listeners s))
                                      (passiveIdx s)]> (sets w)) w)) as [_ Hsets].
  rewrite Hsets. simpl.
  rewrite list_lookup_insert_eq by (by eapply lookup_lt_Some). done.
Qed.

Lemma resume_registry f w :
  listenerMap (resume behave f w) = listenerMap w
  /\ sets (resume behave f w) = sets w.
Proof. apply (resume_effect f w). Qed.

Lemma step_resume w f q :
  queue w = f :: q -> step behave w = Some (resume behave f (set_queue q w)).
Proof. unfold step. by intros ->. Qed.

Lemma step_registry w w' :
  step behave w = Some w' -> listenerMap w' = listenerMap w /\ sets w' = sets w.
Proof.
  unfold step. destruct (queue w) as [|f q]; [done|]. intros [= <-].
  apply (resume_registry f (set_queue q w)).
Qed.

Lemma run_registry fuel : forall w,
  listenerMap (run behave fuel w) = listenerMap w
  /\ sets (run behave fuel w) = sets w.
Proof.
  induction fuel as [|fuel IH]; intros w; simpl; [done|].
  destruct (step behave w) as [w'|] eqn:Hs; [|done].
  destruct (IH w') as [-> ->]. by apply step_registry.
Qed.

Lemma emit_removed_registry ev ls w :
  listenerMap (emit_removed behave ev ls w) = listenerMap w
  /\ sets (emit_removed behave ev ls w) = sets w.
Proof.
  unfold emit_removed. revert w. induction ls as [|e ls IH]; intros w; [done|].
  simpl. destruct (IH (snd (emitImpl behave "removeListener"
                               [VStr ev; VFun (fn e)] w))) as [-> ->].
  apply emitImpl_registry.
Qed.

End Engine_effect.

(** ** Registration *)

Lemma registry_ok_same w w' :
  listenerMap w' = listenerMap w -> sets w' = sets w ->
  registry_ok w -> registry_ok w'.
Proof. unfold registry_ok, sets_ok, separate. intros -> ->. done. Qed.

Lemma raise_registry error w :
  listenerMap (raise error w) = listenerMap w /\ sets (raise error w) = sets w.
Proof. done. Qed.

(** [register] throws for an inherited name only, and then only when a
    case of the [switch] matches. *)
Lemma register_Some ev f type w :
  map_get (listenerMap w) ev <> None \/ inherited ev = false ->
  exists w', register ev f type w = Some w'.
Proof.
  intros Hown. unfold register.
  destruct (map_get (listenerMap w) ev) as [l|].
  - destruct (sets w !! l); by eexists.
  - destruct Hown as [?| ->]; [done|]. by eexists.
Qed.

(** [register] changes the registry only. *)
Lemma register_logs ev f type w w' :
  register ev f type w = Some w' ->
  heap w' = heap w /\ queue w' = queue w /\ promises w' = promises w
  /\ emitted w' = emitted w /\ trace w' = trace w /\ thrown w' = thrown w.
Proof.
  unfold register. destruct (map_get (listenerMap w) ev) as [l|].
  - destruct (sets w !! l); by intros [= <-].
  - destruct (inherited ev); [destruct (switch_matches _)|]; by intros [= <-].
Qed.

Lemma register_ok ev f type w w' :
  registry_ok w -> register ev f type w = Some w' -> registry_ok w'.
Proof.
  intros [Hok Hsep]. unfold register.
  destruct (map_get (listenerMap w) ev) as [l|] eqn:Hev.
  - destruct (Hok ev l Hev) as (s & Hs & Hg). rewrite Hs. intros [= <-].
    split; [|done].
    intros ev' l' Hev'. simpl in *.
    destruct (Hok ev' l' Hev') as (s' & Hs' & Hg').
    destruct (decide (l' = l)) as [->|Hne].
    + exists (insert_by_type (normalize_type type) f s). split.
      * apply list_lookup_insert_eq. by eapply lookup_lt_Some.
      * by apply good_insert.
    + exists s'. by rewrite list_lookup_insert_ne.
  - destruct (inherited ev);
      [destruct (switch_matches _); [done|by intros [= <-]]|].
    intros [= <-]. split.
    + intros ev' l' Hev'. simpl in *.
      destruct (decide (ev = ev')) as [<-|Hne].
      * rewrite map_get_set_eq in Hev'. injection Hev' as <-.
        eexists. split; [apply list_lookup_middle; done|]. apply good_singleton.
      * rewrite map_get_set_ne in Hev' by done.
        destruct (Hok ev' l' Hev') as (s' & Hs' & Hg').
        exists s'. split; [|done]. by apply lookup_app_l_Some.
    + (* the new set is at a reference no name has yet *)
      assert (forall e l, map_get (listenerMap w) e = Some l -> l <> length (sets w))
        as Hfresh.
      { intros e l He. destruct (Hok e l He) as (s & Hs & _).
        apply lookup_lt_Some in Hs. lia. }
      intros e1 e2 l. simpl.
      destruct (decide (ev = e1)) as [<-|H1], (decide (ev = e2)) as [<-|H2];
        [done| | |].
      * rewrite map_get_set_eq, map_get_set_ne by done.
        intros [= <-] H. by apply Hfresh in H.
      * rewrite map_get_set_eq, map_get_set_ne by done.
        intros H [= <-]. by apply Hfresh in H.
      * rewrite !map_get_set_ne by done. apply Hsep.
Qed.


(** ** The invariant of the registry *)
Section Registry_invariant.

Variable behave : Listener -> list Value -> Heap -> Outcome * Heap.

Lemma onImpl_ok ev f type w : registry_ok w -> registry_ok (onImpl behave ev f type w).
Proof.
  intros Hok. unfold onImpl.
  destruct (register ev f type w) as [w'|] eqn:Hreg; [|done].
  destruct (emitImpl_registry behave "newListener" [VStr ev; VFun f] w')
    as [Hm Hs].
  eapply registry_ok_same; [exact Hm|exact Hs|]. by eapply register_ok.
Qed.

Lemma remove_all_ok w : registry_ok (remove_all behave w).
Proof. split; intros ev l; unfold remove_all; simpl; done. Qed.

(** [delete this.listenerMap[ev]], whatever became of the set of [ev]. *)
Lemma delete_ok ev l s w w' :
  map_get (listenerMap w) ev = Some l ->
  listenerMap w' = map_delete (listenerMap w) ev ->
  sets w' = <[l := s]> (sets w) ->
  registry_ok w -> registry_ok w'.
Proof.
  intros Hev Hm Hs [Hok Hsep]. split.
  - intros ev' l'. rewrite Hm, Hs.
    destruct (decide (ev = ev')) as [<-|Hne];
      [by rewrite map_get_delete_eq|rewrite map_get_delete_ne by done].
    intros Hev'. destruct (Hok ev' l' Hev') as (s0 & Hs0 & Hg0).
    exists s0. split; [|done]. rewrite list_lookup_insert_ne; [done|].
    intros <-. apply Hne. by eapply Hsep.
  - intros e1 e2 l'. rewrite Hm.
    destruct (decide (ev = e1)) as [<-|H1];
      [by rewrite map_get_delete_eq|rewrite map_get_delete_ne by done].
    destruct (decide (ev = e2)) as [<-|H2];
      [by rewrite map_get_delete_eq|rewrite map_get_delete_ne by done].
    apply Hsep.
Qed.

Lemma remove_event_ok ev w : registry_ok w -> registry_ok (remove_event behave ev w).
Proof.
  intros Hok. unfold remove_event.
  destruct (map_get (listenerMap w) ev) as [l|] eqn:Hev;
    [|by destruct (inherited ev)].
  destruct (emit_removed_registry behave ev (live_listeners w l) w) as [Hm Hs].
  destruct (proj1 Hok ev l Hev) as (s & Hl & _).
  eapply (delete_ok ev l s w); [done|simpl; by rewrite Hm| |done].
  simpl. rewrite Hs. by rewrite list_insert_id.
Qed.

Lemma update_ok l s w :
  good_set s -> l < length (sets w) ->
  registry_ok w -> registry_ok (set_sets (<[l := s]> (sets w)) w).
Proof.
  intros Hg Hl [Hok Hsep]. split; [|done]. intros ev' l' Hev'. simpl in *.
  destruct (Hok ev' l' Hev') as (s' & Hs' & Hg').
  destruct (decide (l' = l)) as [->|Hne].
  - exists s. split; [by apply list_lookup_insert_eq|done].
  - exists s'. by rewrite list_lookup_insert_ne.
Qed.

Lemma remove_listener_ok ev f w :
  registry_ok w -> registry_ok (remove_listener behave ev f w).
Proof.
  intros Hok. unfold remove_listener.
  destruct (map_get (listenerMap w) ev) as [l|] eqn:Hev;
    [|by destruct (inherited ev)].
  destruct (proj1 Hok ev l Hev) as (s & Hs & Hg). rewrite Hs.
  destruct (indexOf (listeners s) f) as [index|] eqn:Hidx; [|done].
  rewrite (remove_one_eq behave ev f l s index w Hs). cbv zeta.
  apply indexOf_lookup in Hidx as (e & He & _).
  apply lookup_lt_Some in He. pose proof (lookup_lt_Some _ _ _ Hs) as Hl.
  set (s' := mkSet (splice_remove index (listeners s)) (passiveIdx s)).
  set (w1 := set_sets (<[l := s']> (sets w)) w).
  destruct (emitImpl_registry behave "removeListener" [VStr ev; VFun f] w1)
    as [Hm Hsets].
  set (w2 := snd (emitImpl behave "removeListener" [VStr ev; VFun f] w1)) in *.
  pose proof (tiered_remove s index (good_tiered s Hg) He) as Ht.
  simpl. destruct (Nat.eqb_spec (length (splice_remove index (listeners s))) 0)
    as [Hz|Hnz].
  - eapply (delete_ok ev l s' w); [done|simpl; by rewrite Hm| |done].
    simpl. by rewrite Hsets.
  - assert (listeners (mkSet (splice_remove index (listeners s))
              (if Nat.ltb index (passiveIdx s) then Nat.pred (passiveIdx s)
               else passiveIdx s)) <> []) as Hne.
    { simpl. intros Hnil. by rewrite Hnil in Hnz. }
    pose proof (tiered_good _ Ht Hne) as Hgood.
    destruct (Nat.ltb index (passiveIdx s)).
    + assert (registry_ok (set_sets (<[l := mkSet (splice_remove index (listeners s))
                (Nat.pred (passiveIdx s))]> (sets w)) w)) as Hfin
        by (by apply update_ok).
      revert Hfin. apply registry_ok_same; simpl; [done|].
      by rewrite Hsets; simpl; rewrite list_insert_insert_eq.
    + eapply registry_ok_same; [exact Hm|exact Hsets|].
      by apply update_ok.
Qed.

Lemma offImpl_ok eventName listener w :
  registry_ok w -> registry_ok (offImpl behave eventName listener w).
Proof.
  intros Hok. unfold offImpl.
  destruct eventName as [ev|], listener as [f|];
    try destruct (no_event_name (Some ev));
    auto using remove_all_ok, remove_event_ok, remove_listener_ok.
Qed.

End Registry_invariant.

(** ** The order of the tiers *)
Section Tier_order.

Variable behave : Listener -> list Value -> Heap -> Outcome * Heap.

Lemma valid_normalize type :
  valid_type type = true ->
  normalize_type type = ListenerType.ACTIVE
  \/ normalize_type type = ListenerType.EARLY
  \/ normalize_type type = ListenerType.PASSIVE.
Proof.
  unfold valid_type, normalize_type, strict_eq.
  repeat case_bool_decide; subst; simpl; auto; discriminate.
Qed.




Lemma onImpl_get_set ev f type w :
  get_set (onImpl behave ev f type w) ev
  = match get_set w ev with
    | Some s => Some (insert_by_type (normalize_type type) f s)
    | None =>
        match map_get (listenerMap w) ev with
        | Some _ => None
        | None =>
            if inherited ev then None
            else
              Some (mkSet [mkEntry f (normalize_type type)]
                     (if strict_eq (normalize_type type) ListenerType.PASSIVE
                      then 0 else 1))
        end
    end.
Proof.
  unfold onImpl, get_set.
  destruct (register ev f type w) as [w'|] eqn:Hreg.
  - destruct (emitImpl_registry behave "newListener" [VStr ev; VFun f] w')
      as [-> ->].
    unfold register in Hreg.
    destruct (map_get (listenerMap w) ev) as [l|] eqn:Hev.
    + destruct (sets w !! l) as [s|] eqn:Hs; injection Hreg as <-; simpl;
        rewrite Hev; [|done].
      apply list_lookup_insert_eq. by eapply lookup_lt_Some.
    + destruct (inherited ev).
      * destruct (switch_matches _); [done|]. injection Hreg as <-.
        by rewrite Hev.
      * injection Hreg as <-. simpl. rewrite map_get_set_eq.
        by apply list_lookup_middle.
  - simpl. unfold register in Hreg.
    destruct (map_get (listenerMap w) ev) as [l|] eqn:Hev;
      [by destruct (sets w !! l)|].
    by destruct (inherited ev).
Qed.





End Tier_order.


(** ** Termination of the microtask queue *)

Lemma weight_same w w' f :
  listenerMap w' = listenerMap w -> sets w' = sets w -> weight w' f = weight w f.
Proof.
  intros Hm Hs. unfold weight, cost, remaining, error_count, live_listeners.
  by rewrite Hm, Hs.
Qed.

Lemma cost_pos w ev : 0 < cost w ev.
Proof. unfold cost. case_bool_decide; lia. Qed.

Lemma weight_pos w f : 0 < weight w f.
Proof. unfold weight. pose proof (cost_pos w (f_name f)). nia. Qed.

Lemma sum_weight_same w w' q :
  listenerMap w' = listenerMap w -> sets w' = sets w ->
  sum_list_with (weight w') q = sum_list_with (weight w) q.
Proof.
  intros Hm Hs. induction q as [|f q IH]; simpl; [done|].
  by rewrite IH, (weight_same w w' f Hm Hs).
Qed.

Lemma error_count_same w w' :
  listenerMap w' = listenerMap w -> sets w' = sets w ->
  error_count w' = error_count w.
Proof. intros Hm Hs. unfold error_count, live_listeners. by rewrite Hm, Hs. Qed.

Lemma cost_same w w' ev :
  listenerMap w' = listenerMap w -> sets w' = sets w -> cost w' ev = cost w ev.
Proof. intros Hm Hs. unfold cost. by rewrite (error_count_same w w' Hm Hs). Qed.

Section Loop_queue.

Variable behave : Listener -> list Value -> Heap -> Outcome * Heap.
Variable funnel : Value -> World -> World.
Hypothesis funnel_registry : forall error w,
  listenerMap (funnel error w) = listenerMap w /\ sets (funnel error w) = sets w.
Hypothesis funnel_queue : forall error w,
  exists extra, queue (funnel error w) = queue w ++ extra
    /\ sum_list_with (weight w) extra <= error_count w.

Lemma iterate_queue p ev args event set rest : forall idx w,
  length (live_listeners w set) - idx <= length rest ->
  exists extra,
    queue (iterate behave funnel rest p ev args event set idx w) = queue w ++ extra
    /\ sum_list_with (weight w) extra <= length rest * cost w ev.
Proof.
  induction rest as [|e rest IH]; intros idx w Hlen; simpl in *.
  - exists []. split; [by rewrite app_nil_r|simpl; lia].
  - unfold apply_listener. destruct (behave (fn e) args (heap w)) as [out h'].
    set (w1 := record_call p ev args e h' w).
    assert (forall out',
      sum_list_with (weight w) [mkFrame p ev args event set (S idx) out']
      <= S (length rest) * cost w ev) as Hframe.
    { intros out'. unfold weight, remaining. simpl.
      assert (S (length (live_listeners w set) - S idx) <= S (length rest)) by lia.
      pose proof (cost_pos w ev). nia. }
    destruct out as [|error|error].
    + eexists. split; [done|]. apply Hframe.
    + unfold catch.
      destruct (bool_decide (ev = "error") || no_error_listener w1) eqn:Hcond.
      { exists []. split; [simpl; by rewrite app_nil_r|simpl; lia]. }
      apply orb_false_iff in Hcond as [Hev _].
      destruct (funnel_registry error w1) as [Hm Hs].
      destruct (funnel_queue error w1) as (ex1 & Hq1 & Hle1).
      assert (cost w ev = S (error_count w)) as Hcost
        by (unfold cost; by rewrite Hev).
      rewrite (sum_weight_same w w1 ex1 eq_refl eq_refl) in Hle1.
      rewrite (error_count_same w w1 eq_refl eq_refl) in Hle1.
      destruct (cancel_requested event (heap (funnel error w1))).
      * exists ex1. split; [done|]. rewrite Hcost. nia.
      * destruct (IH (S idx) (funnel error w1)) as (ex2 & Hq2 & Hle2).
        { unfold live_listeners in *. rewrite Hs. simpl. lia. }
        exists (ex1 ++ ex2). rewrite Hq2, Hq1, app_assoc. split; [done|].
        rewrite sum_list_with_app.
        rewrite (sum_weight_same w (funnel error w1) ex2) in Hle2 by (by rewrite ?Hm, ?Hs).
        rewrite (cost_same w (funnel error w1)) in Hle2 by (by rewrite ?Hm, ?Hs).
        rewrite Hcost in *. nia.
    + eexists. split; [done|]. apply Hframe.
Qed.

Lemma next_listener_queue p ev args event set idx w :
  exists extra,
    queue (next_listener behave funnel p ev args event set idx w) = queue w ++ extra
    /\ sum_list_with (weight w) extra
       <= (length (live_listeners w set) - idx) * cost w ev.
Proof.
  destruct (iterate_queue p ev args event set (drop idx (live_listeners w set)) idx w)
    as (extra & Hq & Hle).
  - rewrite length_drop. lia.
  - exists extra. split; [done|]. by rewrite length_drop in Hle.
Qed.

Lemma after_listener_queue f w :
  exists extra,
    queue (after_listener behave funnel f w) = queue w ++ extra
    /\ sum_list_with (weight w) extra <= remaining w f * cost w (f_name f).
Proof.
  unfold after_listener. destruct (cancel_requested (f_event f) (heap w)).
  - exists []. split; [simpl; by rewrite app_nil_r|simpl; lia].
  - apply next_listener_queue.
Qed.

End Loop_queue.

Section Engine_queue.

Variable behave : Listener -> list Value -> Heap -> Outcome * Heap.

Lemma emit_error_registry error w :
  listenerMap (emit_error behave error w) = listenerMap w
  /\ sets (emit_error behave error w) = sets w.
Proof. apply (emit_error_effect behave 0 "" error w). Qed.

Lemma emit_error_queue error w :
  exists extra,
    queue (emit_error behave error w) = queue w ++ extra
    /\ sum_list_with (weight w) extra <= error_count w.
Proof.
  assert (forall (error : Value) (w0 : World),
            listenerMap w0 = listenerMap w0 /\ sets w0 = sets w0) as Hreg by done.
  assert (forall (error : Value) (w0 : World),
            exists extra, queue w0 = queue w0 ++ extra
              /\ sum_list_with (weight w0) extra <= error_count w0) as Hidle
    by (intros _ w0; exists []; split; [by rewrite app_nil_r|simpl; lia]).
  unfold emit_error, emit_with, error_count. simpl.
  destruct (map_get (listenerMap w) "error") as [l|]; simpl.
  - match goal with |- context [next_listener ?b ?fu ?p ?e ?a ?g ?s ?i ?x] =>
      destruct (next_listener_queue b fu Hreg Hidle p e a g s i x)
        as (extra & Hq & Hle) end.
    exists extra. split; [exact Hq|].
    unfold cost, live_listeners in *. simpl in *.
    match type of Hle with context [weight ?x] =>
      rewrite (sum_weight_same w x extra eq_refl eq_refl) in Hle end.
    lia.
  - exists []. split; [by rewrite app_nil_r|simpl; lia].
Qed.

Lemma resume_queue f w :
  exists extra,
    queue (resume behave f w) = queue w ++ extra
    /\ sum_list_with (weight w) extra < weight w f.
Proof.
  pose proof (cost_pos w (f_name f)) as Hpos.
  assert (weight w f = S (remaining w f) * cost w (f_name f)) as Hweight by done.
  unfold resume. destruct (f_pending f) as [|error].
  - destruct (after_listener_queue behave (emit_error behave)
                emit_error_registry emit_error_queue f w) as (extra & Hq & Hle).
    exists extra. split; [done|]. rewrite Hweight. nia.
  - unfold catch.
    destruct (bool_decide (f_name f = "error") || no_error_listener w) eqn:Hcond.
    { exists []. split; [by rewrite app_nil_r|apply weight_pos]. }
    apply orb_false_iff in Hcond as [Hev _].
    destruct (emit_error_registry error w) as [Hm Hs].
    destruct (emit_error_queue error w) as (ex1 & Hq1 & Hle1).
    destruct (after_listener_queue behave (emit_error behave)
                emit_error_registry emit_error_queue f (emit_error behave error w))
      as (ex2 & Hq2 & Hle2).
    exists (ex1 ++ ex2). rewrite Hq2, Hq1, app_assoc. split; [done|].
    rewrite sum_list_with_app.
    rewrite (sum_weight_same w _ ex2 Hm Hs) in Hle2.
    rewrite (cost_same w _ (f_name f) Hm Hs) in Hle2.
    replace (remaining (emit_error behave error w) f) with (remaining w f) in Hle2
      by (unfold remaining, live_listeners; by rewrite Hs).
    rewrite Hweight. unfold cost in *. rewrite Hev in *. nia.
Qed.

Lemma step_decreases w w' :
  step behave w = Some w' -> fuel_bound w' < fuel_bound w.
Proof.
  unfold step, fuel_bound. destruct (queue w) as [|f q] eqn:Hq; [done|].
  intros [= <-].
  destruct (resume_queue f (set_queue q w)) as (extra & -> & Hlt).
  destruct (resume_registry behave f (set_queue q w)) as [Hm Hs].
  rewrite (sum_weight_same _ _ _ Hm Hs).
  rewrite (weight_same w (set_queue q w) f eq_refl eq_refl) in Hlt.
  rewrite (sum_weight_same w (set_queue q w) extra eq_refl eq_refl) in Hlt.
  rewrite (sum_weight_same w (set_queue q w) _ eq_refl eq_refl).
  simpl. rewrite sum_list_with_app. lia.
Qed.

(** The queue is drained after [fuel_bound w] microtasks, and stays so. *)
Lemma run_drains fuel : forall w,
  fuel_bound w <= fuel -> queue (run behave fuel w) = [].
Proof.
  induction fuel as [|fuel IH]; intros w Hb; simpl.
  - unfold fuel_bound in Hb. destruct (queue w) as [|f q]; [done|].
    simpl in Hb. pose proof (weight_pos w f). lia.
  - destruct (step behave w) as [w'|] eqn:Hs.
    + apply IH. apply step_decreases in Hs. lia.
    + unfold step in Hs. by destruct (queue w).
Qed.


Lemma run_after_step fuel w w' :
  step behave w = Some w' -> run behave (S fuel) w = run behave fuel w'.
Proof. simpl. by intros ->. Qed.

End Engine_queue.

(** ** The promise of an emission *)

Section Loop_own.

Variable behave : Listener -> list Value -> Heap -> Outcome * Heap.
Variable funnel : Value -> World -> World.
Hypothesis funnel_effect : forall fp nm error w, effect fp nm w (funnel error w).

Lemma settle_own fp s w :
  fp < length (promises w) -> s <> Pending ->
  promises (settle fp s w) !! fp <> Some Pending.
Proof.
  intros Hp Hs. unfold settle. simpl. rewrite list_lookup_insert_eq by done.
  congruence.
Qed.

(** The loop settles the promise or leaves a frame that will. *)
Lemma iterate_own fp nm args event set rest : forall idx w,
  fp < length (promises w) ->
  promises (iterate behave funnel rest fp nm args event set idx w) !! fp
    <> Some Pending
  \/ exists g, g ∈ queue (iterate behave funnel rest fp nm args event set idx w)
       /\ f_promise g = fp.
Proof.
  induction rest as [|e rest IH]; intros idx w Hp; simpl.
  - left. by apply settle_own.
  - unfold apply_listener. destruct (behave (fn e) args (heap w)) as [out h'].
    set (w1 := record_call fp nm args e h' w).
    assert (fp < length (promises w1)) as Hp1 by done.
    destruct out as [|error|error].
    + right. eexists. simpl.
      split; [apply elem_of_app; right; apply list_elem_of_here|done].
    + destruct (catch funnel nm error w1) as [w2|] eqn:Hcatch.
      * destruct (catch_effect funnel funnel_effect fp nm nm error w1 w2 Hcatch)
          as (_ & _ & _ & Hl & _).
        destruct (cancel_requested event (heap w2)).
        -- left. apply settle_own; [lia|done].
        -- apply IH. lia.
      * left. by apply settle_own.
    + right. eexists. simpl.
      split; [apply elem_of_app; right; apply list_elem_of_here|done].
Qed.

Lemma after_listener_own f w :
  f_promise f < length (promises w) ->
  promises (after_listener behave funnel f w) !! f_promise f <> Some Pending
  \/ exists g, g ∈ queue (after_listener behave funnel f w)
       /\ f_promise g = f_promise f.
Proof.
  intros Hp. unfold after_listener.
  destruct (cancel_requested (f_event f) (heap w)).
  - left. by apply settle_own.
  - by apply iterate_own.
Qed.

End Loop_own.

Section Engine_own.

Variable behave : Listener -> list Value -> Heap -> Outcome * Heap.

Lemma resume_own f w :
  f_promise f < length (promises w) ->
  promises (resume behave f w) !! f_promise f <> Some Pending
  \/ exists g, g ∈ queue (resume behave f w) /\ f_promise g = f_promise f.
Proof.
  intros Hp. unfold resume. destruct (f_pending f) as [|error].
  - by apply after_listener_own; [apply emit_error_effect|].
  - destruct (catch (emit_error behave) (f_name f) error w) as [w'|] eqn:Hcatch.
    + destruct (catch_effect _ (emit_error_effect behave) (f_promise f) (f_name f)
                  _ _ _ _ Hcatch) as (_ & _ & _ & Hl & _).
      apply after_listener_own; [apply emit_error_effect|lia].
    + left. by apply settle_own.
Qed.

Lemma called_by_quiet p w w' tx :
  trace w' = trace w ++ tx -> Forall (fun c => c_promise c <> p) tx ->
  called_by p w' = called_by p w.
Proof.
  intros Ht Hf. unfold called_by. rewrite Ht, filter_app, map_app.
  rewrite (filter_none _ tx); [by rewrite app_nil_r|].
  eapply Forall_impl; [exact Hf|]. done.
Qed.

Lemma finished_step p w w' :
  finished p w -> step behave w = Some w' ->
  finished p w' /\ promises w' !! p = promises w !! p
  /\ called_by p w' = called_by p w.
Proof.
  intros [Hp Hq]. unfold step. destruct (queue w) as [|f q] eqn:Hqueue; [done|].
  intros [= <-]. apply Forall_cons in Hq as [Hf Hq].
  destruct (resume_effect behave f (set_queue q w))
    as (_ & (qx & Hqx & Hfx) & (tx & Htx & Hcx) & Hl & Ho & _).
  simpl in *. repeat split.
  - lia.
  - rewrite Hqx. apply Forall_app. split; [done|].
    eapply Forall_impl; [exact Hfx|]. simpl. intros g [[? _]|?]; lia.
  - apply Ho; [done|]. congruence.
  - apply (called_by_quiet p (set_queue q w) _ tx Htx).
    eapply Forall_impl; [exact Hcx|]. simpl. intros c [?|?]; lia.
Qed.

Lemma finished_run p fuel : forall w,
  finished p w ->
  promises (run behave fuel w) !! p = promises w !! p
  /\ called_by p (run behave fuel w) = called_by p w.
Proof.
  induction fuel as [|fuel IH]; intros w Hfin; simpl; [done|].
  destruct (step behave w) as [w'|] eqn:Hs; [|done].
  destruct (finished_step p w w' Hfin Hs) as (Hfin' & <- & <-).
  by apply IH.
Qed.

Lemma never_false_step p w w' :
  p < length (promises w) -> promises w !! p <> Some (Resolved false) ->
  step behave w = Some w' ->
  p < length (promises w') /\ promises w' !! p <> Some (Resolved false).
Proof.
  intros Hp Hnf. unfold step. destruct (queue w) as [|f q]; [done|].
  intros [= <-].
  destruct (resume_effect behave f (set_queue q w)) as (_ & _ & _ & Hl & _ & Hs).
  simpl in *. split; [lia|].
  destruct (Hs p Hp) as [->|[->|[v ->]]]; done.
Qed.

Lemma never_false_run p fuel : forall w,
  p < length (promises w) -> promises w !! p <> Some (Resolved false) ->
  promises (run behave fuel w) !! p <> Some (Resolved false).
Proof.
  induction fuel as [|fuel IH]; intros w Hp Hnf; simpl; [done|].
  destruct (step behave w) as [w'|] eqn:Hs; [|done].
  destruct (never_false_step p w w' Hp Hnf Hs). by apply IH.
Qed.

Lemma in_flight_step p w w' :
  in_flight p w -> step behave w = Some w' -> in_flight p w'.
Proof.
  intros [Hp Hfr]. unfold step. destruct (queue w) as [|f q] eqn:Hqueue; [done|].
  intros [= <-].
  destruct (resume_effect behave f (set_queue q w))
    as (_ & (qx & Hqx & _) & _ & Hl & _ & Hs).
  simpl in *. split; [lia|]. intros Hpend.
  destruct (Hs p Hp) as [Heq|[Hset|[v Hset]]]; [|congruence..].
  pose proof Hpend as Hpend'. rewrite Heq in Hpend'.
  destruct (Hfr Hpend') as (g & Hg & Hgp).
  apply elem_of_cons in Hg as [->|Hg].
  - destruct (resume_own f (set_queue q w)) as [Hne|Hex]; simpl; [lia| |].
    + exfalso. apply Hne. by rewrite Hgp.
    + by rewrite <- Hgp.
  - exists g. split; [|done]. rewrite Hqx. apply elem_of_app. by left.
Qed.

Lemma in_flight_run p fuel : forall w,
  in_flight p w -> in_flight p (run behave fuel w).
Proof.
  induction fuel as [|fuel IH]; intros w Hin; simpl; [done|].
  destruct (step behave w) as [w'|] eqn:Hs; [|done].
  apply IH. by eapply in_flight_step.
Qed.

(** Once the queue is drained the promise is settled. *)
Lemma in_flight_settled p fuel w :
  in_flight p w -> fuel_bound w <= fuel ->
  exists s, promises (run behave fuel w) !! p = Some s /\ s <> Pending.
Proof.
  intros Hin Hfuel. destruct (in_flight_run p fuel w Hin) as [Hp Hfr].
  destruct (lookup_lt_is_Some_2 _ _ Hp) as [s Hs]. exists s. split; [done|].
  intros ->. destruct (Hfr Hs) as (g & Hg & _).
  rewrite (run_drains behave fuel w Hfuel) in Hg. by apply elem_of_nil in Hg.
Qed.

End Engine_own.

(** ** Worlds that are well formed *)

Section World_ok.

Variable behave : Listener -> list Value -> Heap -> Outcome * Heap.

Lemma effect_world_ok fp nm w w' :
  fp < length (promises w') -> effect fp nm w w' -> world_ok w -> world_ok w'.
Proof.
  intros Hfp (_ & (qx & Hqx & Hfx) & (tx & Htx & Hcx) & Hl & _) [Hq Ht].
  split.
  - rewrite Hqx. apply Forall_app. split.
    + eapply Forall_impl; [exact Hq|]. simpl. intros g Hg. lia.
    + eapply Forall_impl; [exact Hfx|]. simpl. intros g [[? _]|?]; lia.
  - rewrite Htx. apply Forall_app. split.
    + eapply Forall_impl; [exact Ht|]. simpl. intros c Hc. lia.
    + eapply Forall_impl; [exact Hcx|]. simpl. intros c [?|?]; lia.
Qed.

Lemma emitImpl_longer ev args w :
  length (promises w) < length (promises (snd (emitImpl behave ev args w))).
Proof.
  unfold emitImpl, emit_with. destruct (map_get _ ev) as [l|]; simpl.
  - match goal with |- context [next_listener ?b ?fu ?p ?e ?a ?g ?s ?i ?x] =>
      destruct (next_listener_effect b fu (emit_error_effect b) p e a g s i x)
        as (_ & _ & _ & Hl & _) end.
    simpl in Hl. rewrite length_app in Hl. simpl in Hl. lia.
  - destruct (inherited ev); simpl; rewrite length_insert, length_app; simpl; lia.
Qed.

Lemma emitImpl_world_ok ev args w :
  world_ok w -> world_ok (snd (emitImpl behave ev args w)).
Proof.
  apply (effect_world_ok (length (promises w)) "").
  - apply emitImpl_longer.
  - apply emitImpl_effect.
Qed.

Lemma step_world_ok w w' : world_ok w -> step behave w = Some w' -> world_ok w'.
Proof.
  intros [Hq Ht]. unfold step. destruct (queue w) as [|f q] eqn:Hqueue; [done|].
  intros [= <-]. apply Forall_cons in Hq as [Hf Hq].
  pose proof (resume_effect behave f (set_queue q w)) as Heff.
  apply (effect_world_ok (f_promise f) (f_name f) (set_queue q w)); [|done|done].
  destruct Heff as (_ & _ & _ & Hl & _). simpl in Hl. lia.
Qed.

Lemma run_world_ok fuel : forall w, world_ok w -> world_ok (run behave fuel w).
Proof.
  induction fuel as [|fuel IH]; intros w Hok; simpl; [done|].
  destruct (step behave w) as [w'|] eqn:Hs; [|done].
  apply IH. by eapply step_world_ok.
Qed.

Lemma register_world_ok ev f type w w' :
  world_ok w -> register ev f type w = Some w' -> world_ok w'.
Proof.
  unfold register, world_ok. destruct (map_get (listenerMap w) ev) as [l|].
  - destruct (sets w !! l); by intros ? [= <-].
  - destruct (inherited ev); [destruct (switch_matches _)|]; by intros ? [= <-].
Qed.

Lemma onImpl_world_ok ev f type w :
  world_ok w -> world_ok (onImpl behave ev f type w).
Proof.
  intros Hok. unfold onImpl.
  destruct (register ev f type w) as [w'|] eqn:Hreg; [|done].
  by eapply emitImpl_world_ok, register_world_ok.
Qed.


Lemma initialize_world_ok : world_ok initialize.
Proof. by split. Qed.

Lemma emit_removed_world_ok ev ls : forall w,
  world_ok w -> world_ok (emit_removed behave ev ls w).
Proof.
  unfold emit_removed. induction ls as [|e ls IH]; intros w Hok; simpl; [done|].
  by apply IH, emitImpl_world_ok.
Qed.

Lemma offImpl_world_ok eventName listener w :
  world_ok w -> world_ok (offImpl behave eventName listener w).
Proof.
  intros Hok.
  assert (world_ok (remove_all behave w)) as Hall.
  { unfold remove_all.
    assert (forall m w0, world_ok w0 ->
      world_ok (fold_left
        (fun w1 '(event, l) => emit_removed behave event (live_listeners w1 l) w1)
        m w0)) as Hfold.
    { induction m as [|[event l] m IH]; intros w0 Hok0; simpl; [done|].
      by apply IH, emit_removed_world_ok. }
    by apply (Hfold (for_in (listenerMap w)) w). }
  assert (forall ev, world_ok (remove_event behave ev w)) as Hevent.
  { intros ev. unfold remove_event.
    destruct (map_get (listenerMap w) ev) as [l|]; [|by destruct (inherited ev)].
    by apply (emit_removed_world_ok ev (live_listeners w l) w). }
  assert (forall ev f, world_ok (remove_listener behave ev f w)) as Hone.
  { intros ev f. unfold remove_listener.
    destruct (map_get (listenerMap w) ev) as [l|]; [|by destruct (inherited ev)].
    destruct (sets w !! l) as [s|] eqn:Hs; [|done].
    destruct (indexOf (listeners s) f) as [index|]; [|done].
    rewrite (remove_one_eq behave ev f l s index w Hs). cbv zeta.
    match goal with |- context [emitImpl behave ?e ?a ?x] =>
      assert (world_ok (snd (emitImpl behave e a x))) as Hemit
        by (by apply emitImpl_world_ok) end.
    by repeat case_match. }
  unfold offImpl.
  destruct eventName as [ev|], listener as [f|];
    try destruct (no_event_name (Some ev)); auto.
Qed.

End World_ok.

(** ** The order in which an emission applies the listeners *)

Lemma map_lookup {A B} (f : A -> B) (l : list A) i x :
  l !! i = Some x -> map f l !! i = Some (f x).
Proof.
  revert i. induction l as [|y l IH]; intros [|i]; simpl; try done.
  - by intros [= ->].
  - apply IH.
Qed.

Lemma drop_cons_inv {A} (l : list A) k x rest :
  drop k l = x :: rest -> l !! k = Some x /\ drop (S k) l = rest.
Proof.
  intros Hd. assert (l !! k = Some x) as Hx.
  { pose proof (lookup_drop l k 0) as H0. rewrite Hd, Nat.add_0_r in H0.
    by rewrite <- H0. }
  split; [done|]. rewrite (drop_S l x k Hx) in Hd. by injection Hd.
Qed.

Lemma called_by_record p ev args e h w :
  called_by p (record_call p ev args e h w) = called_by p w ++ [fn e].
Proof.
  unfold called_by. simpl. rewrite filter_app, map_app.
  by rewrite filter_cons_True.
Qed.

Lemma called_by_settle p q s w : called_by p (settle q s w) = called_by p w.
Proof. done. Qed.

Section Loop_order.

Variable behave : Listener -> list Value -> Heap -> Outcome * Heap.
Variable funnel : Value -> World -> World.
Hypothesis funnel_effect : forall fp nm error w, effect fp nm w (funnel error w).

(** What the funnel does is nothing to the emission [p]. *)
Lemma funnel_quiet p error w :
  p < length (promises w) ->
  called_by p (funnel error w) = called_by p w
  /\ length (promises w) <= length (promises (funnel error w))
  /\ exists qx, queue (funnel error w) = queue w ++ qx
       /\ Forall (fun h => f_promise h <> p) qx.
Proof.
  intros Hp.
  destruct (funnel_effect (length (promises w)) "" error w)
    as (_ & (qx & Hqx & Hfx) & (tx & Htx & Hcx) & Hl & _).
  split; [|split; [done|]].
  - apply (called_by_quiet p w _ tx Htx).
    eapply Forall_impl; [exact Hcx|]. simpl. intros c [?|?]; lia.
  - exists qx. split; [done|].
    eapply Forall_impl; [exact Hfx|]. simpl. intros g [[? _]|?]; lia.
Qed.

Lemma iterate_track p ev args event l entries rest : forall k w,
  drop k entries = rest ->
  p < length (promises w) ->
  called_by p w = take k (map fn entries) ->
  exists k' qx,
    called_by p (iterate behave funnel rest p ev args event l k w)
    = take k' (map fn entries)
    /\ Forall (fun h => f_promise h <> p) qx
    /\ (queue (iterate behave funnel rest p ev args event l k w) = queue w ++ qx
        \/ exists out,
             queue (iterate behave funnel rest p ev args event l k w)
             = queue w ++ qx ++ [mkFrame p ev args event l k' out]).
Proof.
  induction rest as [|e rest IH]; intros k w Hdrop Hp Hcalled; simpl.
  - exists k, []. rewrite app_nil_r. split; [done|]. split; [constructor|by left].
  - apply drop_cons_inv in Hdrop as [He Hdrop].
    unfold apply_listener. destruct (behave (fn e) args (heap w)) as [out h'].
    set (w1 := record_call p ev args e h' w).
    assert (called_by p w1 = take (S k) (map fn entries)) as Hcalled1.
    { subst w1. rewrite called_by_record, Hcalled.
      symmetry. apply take_S_r. by apply map_lookup. }
    destruct out as [|error|error].
    + exists (S k), []. split; [done|]. split; [constructor|].
      right. by eexists.
    + destruct (catch funnel ev error w1) as [w2|] eqn:Hcatch.
      * unfold catch in Hcatch.
        destruct (bool_decide (ev = "error") || no_error_listener w1); [done|].
        injection Hcatch as <-.
        destruct (funnel_quiet p error w1) as (Hsame & Hl & qx1 & Hq1 & Hf1); [done|].
        change (length (promises w1)) with (length (promises w)) in Hl.
        destruct (cancel_requested event (heap (funnel error w1))).
        -- exists (S k), qx1.
           split; [by rewrite called_by_settle, Hsame|]. split; [done|]. by left.
        -- destruct (IH (S k) (funnel error w1)) as (k' & qx2 & Hc2 & Hf2 & Hq2);
             [done|lia|by rewrite Hsame|].
           exists k', (qx1 ++ qx2). split; [done|].
           split; [by apply Forall_app|]. rewrite Hq1 in Hq2.
           destruct Hq2 as [Hq2|[out Hq2]]; [left|right; exists out];
             rewrite Hq2; simpl; by rewrite <- !app_assoc.
      * exists (S k), []. rewrite app_nil_r. split; [done|].
        split; [constructor|by left].
    + exists (S k), []. split; [done|]. split; [constructor|].
      right. by eexists.
Qed.

Lemma after_listener_track f w :
  f_promise f < length (promises w) ->
  called_by (f_promise f) w
  = take (f_idx f) (map fn (live_listeners w (f_set f))) ->
  exists k' qx,
    called_by (f_promise f) (after_listener behave funnel f w)
    = take k' (map fn (live_listeners w (f_set f)))
    /\ Forall (fun h => f_promise h <> f_promise f) qx
    /\ (queue (after_listener behave funnel f w) = queue w ++ qx
        \/ exists g,
             queue (after_listener behave funnel f w) = queue w ++ qx ++ [g]
             /\ f_promise g = f_promise f /\ f_set g = f_set f /\ f_idx g = k').
Proof.
  intros Hp Hcalled. unfold after_listener.
  destruct (cancel_requested (f_event f) (heap w)).
  - exists (f_idx f), []. rewrite app_nil_r. split; [done|].
    split; [constructor|by left].
  - destruct (iterate_track (f_promise f) (f_name f) (f_args f) (f_event f) (f_set f)
                (live_listeners w (f_set f))
                (drop (f_idx f) (live_listeners w (f_set f))) (f_idx f) w)
      as (k' & qx & Hc & Hf & Hq); [done..|].
    exists k', qx. split; [done|]. split; [done|].
    destruct Hq as [Hq|[out Hq]]; [by left|right].
    eexists. split; [exact Hq|done].
Qed.

End Loop_order.

Section Engine_order.

Variable behave : Listener -> list Value -> Heap -> Outcome * Heap.

Lemma resume_track f w :
  f_promise f < length (promises w) ->
  called_by (f_promise f) w
  = take (f_idx f) (map fn (live_listeners w (f_set f))) ->
  exists k' qx,
    called_by (f_promise f) (resume behave f w)
    = take k' (map fn (live_listeners w (f_set f)))
    /\ Forall (fun h => f_promise h <> f_promise f) qx
    /\ (queue (resume behave f w) = queue w ++ qx
        \/ exists g,
             queue (resume behave f w) = queue w ++ qx ++ [g]
             /\ f_promise g = f_promise f /\ f_set g = f_set f /\ f_idx g = k').
Proof.
  intros Hp Hcalled. unfold resume. destruct (f_pending f) as [|error].
  - by apply after_listener_track; [apply emit_error_effect|..].
  - unfold catch.
    destruct (bool_decide (f_name f = "error") || no_error_listener w).
    { exists (f_idx f), []. rewrite app_nil_r. split; [done|].
      split; [constructor|by left]. }
    destruct (funnel_quiet (emit_error behave) (emit_error_effect behave)
                (f_promise f) error w Hp) as (Hsame & Hl & qx1 & Hq1 & Hf1).
    destruct (emit_error_registry behave error w) as [_ Hs].
    assert (live_listeners (emit_error behave error w) (f_set f)
            = live_listeners w (f_set f)) as Hlive
      by (unfold live_listeners; by rewrite Hs).
    destruct (after_listener_track behave _ (emit_error_effect behave) f
                (emit_error behave error w)) as (k' & qx2 & Hc & Hf2 & Hq2).
    + lia.
    + by rewrite Hsame, Hlive.
    + rewrite Hlive in Hc. exists k', (qx1 ++ qx2). split; [done|].
      split; [by apply Forall_app|]. rewrite Hq1 in Hq2.
      destruct Hq2 as [Hq2|(g & Hq2 & Hg)]; [left|right; exists g; split; [|done]];
        rewrite Hq2; by rewrite <- !app_assoc.
Qed.

Lemma on_track_step p l ls w w' :
  on_track p l ls w -> step behave w = Some w' -> on_track p l ls w'.
Proof.
  intros (Hp & Hls & k & Hcalled & Hshape). unfold step.
  destruct (queue w) as [|f q] eqn:Hqueue; [done|]. intros [= <-].
  destruct (resume_effect behave f (set_queue q w))
    as ([_ Hs] & (qx & Hqx & Hfx) & (tx & Htx & Hcx) & Hl & _).
  simpl in Hs, Hqx, Htx, Hl.
  assert (map fn (live_listeners (resume behave f (set_queue q w)) l) = ls) as Hls'
    by (unfold live_listeners in *; by rewrite Hs).
  assert (f_promise f <> p ->
          called_by p (resume behave f (set_queue q w)) = called_by p w
          /\ Forall (fun h => f_promise h <> p) qx) as Hother.
  { intros Hne. split.
    - apply (called_by_quiet p (set_queue q w) _ tx Htx).
      eapply Forall_impl; [exact Hcx|]. simpl. intros c [?|?]; lia.
    - eapply Forall_impl; [exact Hfx|]. simpl. intros g [[? _]|?]; lia. }
  split; [lia|]. split; [done|].
  destruct Hshape as [(q1 & g & q2 & Hq & Hgp & Hgl & Hgk & Hq1 & Hq2)|Hnone].
  - subst p l k. destruct q1 as [|h q1]; simpl in Hq; simplify_eq.
    + (* the frame of the emission is resumed *)
      destruct (resume_track g (set_queue q2 w)) as (k' & qx' & Hc & Hf & Hshape).
      * simpl. lia.
      * exact Hcalled.
      * exists k'. split; [exact Hc|]. simpl in Hshape.
        destruct Hshape as [Hshape|(g' & Hshape & Hg'p & Hg'l & Hg'k)].
        -- right. rewrite Hshape. by apply Forall_app.
        -- left. exists (q2 ++ qx'), g', []. rewrite Hshape, app_assoc.
           repeat split; try done. by apply Forall_app.
    + (* another frame is resumed *)
      apply Forall_cons in Hq1 as [Hh Hq1]. destruct (Hother Hh) as [Hsame Hfx'].
      exists (f_idx g). split; [by rewrite Hsame|]. left.
      exists q1, g, (q2 ++ qx). rewrite Hqx, <- app_assoc. simpl.
      repeat split; try done. by apply Forall_app.
  - apply Forall_cons in Hnone as [Hf Hnone]. destruct (Hother Hf) as [Hsame Hfx'].
    exists k. split; [by rewrite Hsame|]. right.
    rewrite Hqx. by apply Forall_app.
Qed.

Lemma on_track_run p l ls fuel : forall w,
  on_track p l ls w -> on_track p l ls (run behave fuel w).
Proof.
  induction fuel as [|fuel IH]; intros w Hon; simpl; [done|].
  destruct (step behave w) as [w'|] eqn:Hs; [|done].
  apply IH. by eapply on_track_step.
Qed.

Lemma world_ok_fresh w :
  world_ok w ->
  Forall (fun h => f_promise h <> length (promises w)) (queue w)
  /\ called_by (length (promises w)) w = [].
Proof.
  intros [Hq Ht]. split.
  - eapply Forall_impl; [exact Hq|]. simpl. intros g Hg. lia.
  - unfold called_by. rewrite filter_none; [done|].
    eapply Forall_impl; [exact Ht|]. simpl. intros c Hc. lia.
Qed.

Lemma emitImpl_on_track ev args w l :
  world_ok w ->
  map_get (listenerMap w) ev = Some l ->
  on_track (length (promises w)) l (listeners_of w ev)
           (snd (emitImpl behave ev args w)).
Proof.
  intros Hok Hl. destruct (world_ok_fresh w Hok) as [Hfresh Hnone].
  destruct (emitImpl_registry behave ev args w) as [_ Hs].
  split; [apply emitImpl_longer|]. split.
  { unfold listeners_of, get_set, live_listeners. rewrite Hl, Hs.
    by destruct (sets w !! l). }
  unfold emitImpl, emit_with. simpl. rewrite Hl. simpl.
  set (w1 := set_emitted _ _). unfold next_listener.
  destruct (iterate_track behave _ (emit_error_effect behave) (length (promises w))
              ev args (governing_signal (heap w) args) l (live_listeners w1 l)
              (drop 0 (live_listeners w1 l)) 0 w1)
    as (k' & qx & Hc & Hf & Hq).
  - done.
  - subst w1. simpl. rewrite length_app. simpl. lia.
  - done.
  - assert (map fn (live_listeners w1 l) = listeners_of w ev) as Hls.
    { unfold listeners_of, get_set, live_listeners. rewrite Hl. simpl.
      by destruct (sets w !! l). }
    rewrite Hls in Hc. exists k'. split; [done|].
    destruct Hq as [Hq|[out Hq]].
    + right. rewrite Hq. by apply Forall_app.
    + left. eexists (queue w ++ qx), _, []. rewrite Hq, app_assoc.
      repeat split; try done. by apply Forall_app.
Qed.

(** The listeners an emission has applied are, at any time, the first
    ones of the array of its event, in the order of the array. *)
Lemma emit_in_order ev args w fuel :
  world_ok w ->
  exists k,
    called_by (fst (emitImpl behave ev args w))
              (run behave fuel (snd (emitImpl behave ev args w)))
    = take k (listeners_of w ev).
Proof.
  intros Hok. rewrite emitImpl_promise.
  destruct (map_get (listenerMap w) ev) as [l|] eqn:Hl.
  - destruct (on_track_run _ l _ fuel _ (emitImpl_on_track ev args w l Hok Hl))
      as (_ & _ & k & Hc & _).
    by exists k.
  - exists 0. destruct (world_ok_fresh w Hok) as [Hfresh Hnone].
    destruct (finished_run behave (length (promises w)) fuel
                (snd (emitImpl behave ev args w))) as [_ ->].
    + split; [apply emitImpl_longer|].
      unfold emitImpl, emit_with. simpl. rewrite Hl. by destruct (inherited ev).
    + unfold emitImpl, emit_with. simpl. rewrite Hl.
      destruct (inherited ev); simpl; by rewrite take_0.
Qed.

End Engine_order.

(** ** What [emit] resolves to *)
Section Emit_result.

Variable behave : Listener -> list Value -> Heap -> Outcome * Heap.

Lemma initialize_ok : registry_ok initialize.
Proof. split; [intros ev l|intros ev ev' l]; discriminate. Qed.

(** In a registry that satisfies its invariant, an event has a listener
    exactly when it has an entry. *)
Lemma no_listener_no_set ev w :
  registry_ok w ->
  (listeners_of w ev = [] <-> map_get (listenerMap w) ev = None).
Proof.
  intros [Hok _]. unfold listeners_of, get_set.
  destruct (map_get (listenerMap w) ev) as [l|] eqn:Hev; [|done].
  destruct (Hok ev l Hev) as (s & -> & _ & _ & Hne).
  split; [|done]. intros Hnil. destruct (listeners s); [done|discriminate].
Qed.

(** The emission started by a call that found a set is in flight. *)
Lemma emitImpl_in_flight ev args w :
  map_get (listenerMap w) ev <> None ->
  in_flight (length (promises w)) (snd (emitImpl behave ev args w))
  /\ promises (snd (emitImpl behave ev args w)) !! length (promises w)
     <> Some (Resolved false).
Proof.
  intros Hset. unfold emitImpl, emit_with. simpl.
  destruct (map_get (listenerMap w) ev) as [l|]; [|done]. simpl.
  set (w1 := set_emitted _ _).
  assert (length (promises w) < length (promises w1)) as Hp
    by (subst w1; simpl; rewrite length_app; simpl; lia).
  assert (promises w1 !! length (promises w) = Some Pending) as Hpend
    by (subst w1; simpl; rewrite lookup_app_r, Nat.sub_diag by lia; done).
  clearbody w1. unfold next_listener.
  pose proof (iterate_effect behave (emit_error behave) (emit_error_effect behave)
                (length (promises w)) ev args (governing_signal (heap w) args) l
                (drop 0 (live_listeners w1 l)) 0 w1)
    as (_ & _ & _ & Hl & _ & Hs).
  pose proof (iterate_own behave (emit_error behave) (emit_error_effect behave)
                (length (promises w)) ev args (governing_signal (heap w) args) l
                (drop 0 (live_listeners w1 l)) 0 w1 Hp) as Hown.
  split.
  - split; [lia|]. intros Hstill. by destruct Hown.
  - destruct (Hs _ Hp) as [->|[->|[v ->]]]; [by rewrite Hpend|done..].
Qed.

(** X21: in a registry that satisfies its invariant, so that no set is
    empty, and for an event name that is not inherited from
    [Object.prototype], [emit] resolves [false] exactly when no listener
    is registered for the event name, and then at once, applying no
    listener and emitting nothing else; when a listener is registered it
    never resolves [false]: once the microtasks of its listeners are run
    it has resolved [true] or is rejected. *)
Theorem emit_resolves ev args w :
  registry_ok w ->
  inherited ev = false ->
  let p := fst (emitImpl behave ev args w) in
  let w1 := snd (emitImpl behave ev args w) in
  (listeners_of w ev = [] ->
     promises w1 !! p = Some (Resolved false)
     /\ trace w1 = trace w /\ queue w1 = queue w /\ heap w1 = heap w
     /\ emitted w1 = emitted w ++ [(ev, args)])
  /\ (listeners_of w ev <> [] ->
       (forall fuel, promises (run behave fuel w1) !! p <> Some (Resolved false))
       /\ (forall fuel, fuel_bound w1 <= fuel ->
             promises (run behave fuel w1) !! p = Some (Resolved true)
             \/ exists v, promises (run behave fuel w1) !! p = Some (Rejected v))).
Proof.
  intros Hok Hinh p w1. subst p w1. rewrite emitImpl_promise.
  pose proof (no_listener_no_set ev w Hok) as Hiff. split.
  - intros Hnil. apply Hiff in Hnil. unfold emitImpl, emit_with. simpl.
    rewrite Hnil, Hinh.
    unfold settle. simpl. repeat split.
    apply list_lookup_insert_eq. rewrite length_app. simpl. lia.
  - intros Hsome.
    assert (map_get (listenerMap w) ev <> None) as Hset
      by (intros Hnone; by apply Hsome, Hiff).
    destruct (emitImpl_in_flight ev args w Hset) as [Hin Hnf].
    assert (forall fuel, promises (run behave fuel (snd (emitImpl behave ev args w)))
              !! length (promises w) <> Some (Resolved false)) as Hnever
      by (intros fuel; apply never_false_run; [apply Hin|done]).
    split; [done|]. intros fuel Hfuel.
    destruct (in_flight_settled behave _ fuel _ Hin Hfuel) as (s & Hs & Hpend).
    specialize (Hnever fuel). rewrite Hs in *.
    destruct s as [|[|]|v]; [done|by left|done|right; by exists v].
Qed.

End Emit_result.


(** ** The emissions a call makes *)


Section Loop_emitted.

Variable behave : Listener -> list Value -> Heap -> Outcome * Heap.
Variable funnel : Value -> World -> World.
Hypothesis funnel_emitted : forall error w,
  exists errs, emitted (funnel error w) = emitted w ++ errs
    /\ Forall (fun x => fst x = "error") errs.



End Loop_emitted.

Section Engine_emitted.

Variable behave : Listener -> list Value -> Heap -> Outcome * Heap.




End Engine_emitted.

(** ** Listeners that fail *)

Section Loop_errors.

Variable behave : Listener -> list Value -> Heap -> Outcome * Heap.
Variable funnel : Value -> World -> World.
Hypothesis funnel_effect : forall fp nm error w, effect fp nm w (funnel error w).

Lemma catch_rethrows ev error w :
  ev = "error" \/ no_error_listener w = true -> catch funnel ev error w = None.
Proof.
  intros Hcond. unfold catch.
  replace (bool_decide (ev = "error") || no_error_listener w) with true; [done|].
  symmetry. apply orb_true_iff.
  destruct Hcond as [-> | ->]; [left; by apply bool_decide_eq_true_2|by right].
Qed.


(** The loop at a listener that throws. *)
Lemma iterate_threw e rest p ev args event set idx w error h' :
  behave (fn e) args (heap w) = (Threw error, h') ->
  iterate behave funnel (e :: rest) p ev args event set idx w
  = match catch funnel ev error (record_call p ev args e h' w) with
    | None => settle p (Rejected error) (record_call p ev args e h' w)
    | Some w2 =>
        if cancel_requested event (heap w2) then settle p (Resolved true) w2
        else iterate behave funnel rest p ev args event set (S idx) w2
    end.
Proof. intros Hb. simpl. unfold apply_listener. by rewrite Hb. Qed.





End Loop_errors.

Section Errors.

Variable behave : Listener -> list Value -> Heap -> Outcome * Heap.


Lemma no_error_listener_true w :
  (map_get (listenerMap w) "error" = None
   \/ exists l, map_get (listenerMap w) "error" = Some l /\ live_listeners w l = []) ->
  no_error_listener w = true.
Proof.
  unfold no_error_listener. intros [->|(l & -> & ->)]; done.
Qed.


(** A promise that is settled by the last frame of its emission stays as
    it is, and the emission applies no listener any more. *)
Lemma settled_forever p s w fuel :
  p < length (promises w) ->
  Forall (fun g => f_promise g <> p) (queue w) ->
  promises (run behave fuel (settle p s w)) !! p = Some s
  /\ called_by p (run behave fuel (settle p s w)) = called_by p w.
Proof.
  intros Hp Hq.
  destruct (finished_run behave p fuel (settle p s w)) as [-> ->].
  - split; simpl; [by rewrite length_insert|done].
  - split; [|done]. unfold settle. simpl. by apply list_lookup_insert_eq.
Qed.

(** C3: when a listener throws, or the promise it returned rejects, and
    either the event is ["error"] itself or no listener is registered for
    ["error"] (no entry, or an entry with no listener), the emission is
    rejected with the very value, and no other listener of that emission
    is applied, then or later. *)
Theorem error_rejects ev error w :
  (ev = "error"
   \/ map_get (listenerMap w) "error" = None
   \/ exists l, map_get (listenerMap w) "error" = Some l
                /\ live_listeners w l = []) ->
  (forall e rest p args event set idx h',
     behave (fn e) args (heap w) = (Threw error, h') ->
     iterate behave (emit_error behave) (e :: rest) p ev args event set idx w
     = settle p (Rejected error) (record_call p ev args e h' w))
  /\ (forall f q,
        queue w = f :: q -> f_name f = ev -> f_pending f = Failed error ->
        step behave w
        = Some (settle (f_promise f) (Rejected error) (set_queue q w)))
  /\ (forall p w0,
        p < length (promises w0) ->
        Forall (fun g => f_promise g <> p) (queue w0) ->
        forall fuel,
          promises (run behave fuel (settle p (Rejected error) w0)) !! p
          = Some (Rejected error)
          /\ called_by p (run behave fuel (settle p (Rejected error) w0))
             = called_by p w0).
Proof.
  intros Hcond.
  assert (ev = "error" \/ no_error_listener w = true) as Hcatch.
  { destruct Hcond as [?|Hnone]; [by left|right].
    by apply no_error_listener_true. }
  split; [|split].
  - intros e rest p args event set idx h' Hb.
    rewrite (iterate_threw behave _ e rest p ev args event set idx w error h' Hb).
    by rewrite catch_rethrows.
  - intros f q Hq Hname Hfailed.
    rewrite (step_resume behave w f q Hq). unfold resume.
    rewrite Hfailed, Hname. by rewrite catch_rethrows.
  - intros p w0 Hp Hothers fuel. by apply settled_forever.
Qed.

(** C5: when the emission has a governing signal and, as a listener has
    returned, the signal's [cancelled] is set, no other listener of the
    emission is ever applied and the emission resolves [true]. *)
Theorem cancelled_stops w f q signal :
  queue w = f :: q ->
  f_pending f = Fulfilled ->
  f_event f = Some signal ->
  truthy (Event.get_cancelled (heap w) signal) = true ->
  f_promise f < length (promises w) ->
  Forall (fun g => f_promise g <> f_promise f) q ->
  step behave w = Some (settle (f_promise f) (Resolved true) (set_queue q w))
  /\ forall fuel, 0 < fuel ->
       promises (run behave fuel w) !! f_promise f = Some (Resolved true)
       /\ called_by (f_promise f) (run behave fuel w)
          = called_by (f_promise f) w.
Proof.
  intros Hq Hret Hev Hcancel Hp Hothers.
  assert (step behave w
          = Some (settle (f_promise f) (Resolved true) (set_queue q w))) as Hstep.
  { rewrite (step_resume behave w f q Hq). unfold resume, after_listener.
    rewrite Hret, Hev. simpl. by rewrite Hcancel. }
  split; [done|]. intros fuel Hfuel. destruct fuel as [|fuel]; [lia|].
  rewrite (run_after_step behave fuel w _ Hstep).
  by apply (settled_forever (f_promise f) (Resolved true) (set_queue q w)).
Qed.

End Errors.

(** ** Errors forwarded to ["error"] *)

Section Funnel.

Variable behave : Listener -> list Value -> Heap -> Outcome * Heap.






End Funnel.

(** ** Cancellation *)
Section Cancellation.

Variable behave : Listener -> list Value -> Heap -> Outcome * Heap.

(** The loop applies the listener it is at, whatever the signal says. *)
Lemma iterate_applies_first e rest p ev args event set idx w :
  exists more,
    trace (iterate behave (emit_error behave) (e :: rest) p ev args event set idx w)
    = trace w ++ mkCall p ev (fn e) args :: more.
Proof.
  simpl. unfold apply_listener. destruct (behave (fn e) args (heap w)) as [out h'].
  set (w1 := record_call p ev args e h' w).
  destruct out as [|error|error]; [by exists []| |by exists []].
  destruct (catch (emit_error behave) ev error w1) as [w2|] eqn:Hcatch;
    [|by exists []].
  destruct (catch_effect _ (emit_error_effect behave) p ev _ _ _ _ Hcatch)
    as (_ & _ & (t1 & Ht1 & _) & _).
  destruct (cancel_requested event (heap w2)).
  - exists t1. simpl. rewrite Ht1. simpl. by rewrite <- app_assoc.
  - destruct (iterate_effect behave _ (emit_error_effect behave) p ev args event set
                rest (S idx) w2) as (_ & _ & (t2 & Ht2 & _) & _).
    exists (t1 ++ t2). rewrite Ht2, Ht1. simpl. by rewrite <- !app_assoc.
Qed.

Lemma emitImpl_applies_first ev args w l e rest :
  map_get (listenerMap w) ev = Some l ->
  live_listeners w l = e :: rest ->
  exists more,
    trace (snd (emitImpl behave ev args w))
    = trace w ++ mkCall (length (promises w)) ev (fn e) args :: more.
Proof.
  intros Hl He. unfold emitImpl, emit_with. simpl. rewrite Hl. simpl.
  unfold next_listener, live_listeners in *. simpl. rewrite He. simpl drop.
  match goal with |- context [iterate ?b ?fu (?e :: ?r) ?p ?n ?a ?g ?s ?i ?x] =>
    destruct (iterate_applies_first e r p n a g s i x) as (more & Hmore) end.
  exists more. exact Hmore.
Qed.

(** The call of [emitImpl] whose first listener returns. *)
Lemma emitImpl_returned ev args w l e rest h' :
  map_get (listenerMap w) ev = Some l ->
  live_listeners w l = e :: rest ->
  behave (fn e) args (heap w) = (Returned, h') ->
  snd (emitImpl behave ev args w)
  = mkWorld (listenerMap w) (sets w) h'
      (queue w ++ [mkFrame (length (promises w)) ev args
                     (governing_signal (heap w) args) l 1 Fulfilled])
      (promises w ++ [Pending]) (emitted w ++ [(ev, args)])
      (trace w ++ [mkCall (length (promises w)) ev (fn e) args]) (thrown w).
Proof.
  intros Hl He Hb. unfold emitImpl, emit_with. simpl. rewrite Hl. simpl.
  unfold next_listener, live_listeners in *. simpl. rewrite He. simpl.
  unfold apply_listener. simpl. by rewrite Hb.
Qed.

(** *** Where a rejection comes from *)


Lemma accounted_ext_refl p ev args l ls w : accounted_ext behave p ev args l ls w w.
Proof.
  split; [done|]. split; [done|]. split; [|by left].
  exists []. by rewrite app_nil_r.
Qed.














End Cancellation.

(** ** The public interface *)
Section Interface.

Variable behave : Listener -> list Value -> Heap -> Outcome * Heap.

(** X22: as long as no listener calls the emitter while it is applied,
    every registration and every removal preserves the invariant of the
    registry, also a call that throws for an inherited name: in every
    set of the registry [passiveIdx] is the number of non-passive
    entries, the entries below [passiveIdx] are non-passive and the
    others passive, and no set of the registry is empty. *)
Theorem registry_invariant w :
  registry_ok w ->
  (forall ev f type, registry_ok (onImpl behave ev f type w))
  /\ (forall ev f, registry_ok (addPassiveListenerImpl behave ev f w))
  /\ (forall ev f, registry_ok (prependListenerImpl behave ev f w))
  /\ (forall eventName listener, registry_ok (offImpl behave eventName listener w)).
Proof.
  intros Hok. repeat split; intros;
    try apply onImpl_ok; try apply offImpl_ok; apply Hok.
Qed.

(** C8, amended: the first argument of [emit] is the governing signal
    exactly when it is an instance of [Event] whose [cancellable] is
    truthy. *)
Theorem governing_signal_truthy h args :
  let first := nth 0 args VUndefined in
  governing_signal h args
  = if Event.instanceofEvent h first && truthy (Event.get_cancellable h first)
    then Some first else None.
Proof.
  unfold governing_signal, Event.isCancellable. simpl.
  by destruct (Event.instanceofEvent h (nth 0 args VUndefined)).
Qed.





(** C1: for a name that [listenerMap] inherits from [Object.prototype],
    such as ["toString"], and for which no listener is registered,
    [emit] does not resolve [false]: [this.listenerMap[eventName]] is the
    inherited member, and the promise is rejected with a [TypeError],
    without a listener applied. *)
Theorem emit_inherited_name ev args w :
  inherited ev = true ->
  map_get (listenerMap w) ev = None ->
  let p := fst (emitImpl behave ev args w) in
  let w1 := snd (emitImpl behave ev args w) in
  listeners_of w ev = []
  /\ promises w1 !! p = Some (Rejected TypeError)
  /\ promises w1 !! p <> Some (Resolved false)
  /\ trace w1 = trace w /\ queue w1 = queue w
  /\ emitted w1 = emitted w ++ [(ev, args)].
Proof.
  intros Hinh Hnone p w1. subst p w1. rewrite emitImpl_promise.
  unfold listeners_of, get_set, emitImpl, emit_with. simpl.
  rewrite Hnone, Hinh. simpl.
  assert (<[length (promises w) := Rejected TypeError]> (promises w ++ [Pending])
            !! length (promises w) = Some (Rejected TypeError)) as Hp
    by (apply list_lookup_insert_eq; rewrite length_app; simpl; lia).
  repeat split; [exact Hp|]. by rewrite Hp.
Qed.

(** C2: for a name that [listenerMap] inherits from [Object.prototype],
    such as ["constructor"], a registration with a valid tier registers
    nothing: [set] is the inherited member, [set.listeners] is
    [undefined], and [splice], [unshift] or [push] throws a [TypeError]
    before anything is inserted and before [newListener] is emitted; an
    [emit] of the name afterwards applies no listener. *)
Theorem on_inherited_name ev f type w :
  inherited ev = true ->
  map_get (listenerMap w) ev = None ->
  valid_type type = true ->
  onImpl behave ev f type w = raise TypeError w
  /\ thrown (onImpl behave ev f type w) = thrown w ++ [TypeError]
  /\ listeners_of (onImpl behave ev f type w) ev = []
  /\ emitted (onImpl behave ev f type w) = emitted w
  /\ forall args,
       trace (snd (emitImpl behave ev args (onImpl behave ev f type w))) = trace w.
Proof.
  intros Hinh Hnone Hvalid.
  assert (onImpl behave ev f type w = raise TypeError w) as ->.
  { unfold onImpl, register. rewrite Hnone, Hinh.
    by destruct (valid_normalize type Hvalid) as [-> |[-> | ->]]. }
  split; [done|]. split; [done|]. split.
  - unfold listeners_of, get_set. simpl. by rewrite Hnone.
  - split; [done|]. intros args. unfold emitImpl, emit_with. simpl.
    by rewrite Hnone, Hinh.
Qed.

End Interface.

(** ** The scenarios, evaluated *)

(** Scenario A: one listener on ["void"] is applied once and [emit]
    resolves [true]. *)
Example scenario_A :
  let w := onImpl quiet "void" 7 VUndefined initialize in
  let w1 := run quiet 4 (snd (emitImpl quiet "void" [] w)) in
  called_by 1 w1 = [7] /\ promises w1 !! 1 = Some (Resolved true) /\ queue w1 = [].
Proof. vm_compute. done. Qed.

(** Scenario B: the early listener, then the active one, then the passive
    one. *)
Example scenario_B :
  let w := register_all quiet "x" calls_B initialize in
  listeners_of w "x" = [3; 2; 1]
  /\ called_by 3 (run quiet 4 (snd (emitImpl quiet "x" [] w))) = [3; 2; 1].
Proof. vm_compute. done. Qed.

(** Scenario C: nobody listens to ["error"]; [emit] is rejected with the
    error and the second listener is not applied. *)
Example scenario_C :
  let w1 := run throws_first 4 (snd (emitImpl throws_first "x" [] world_C)) in
  called w1 = [0] /\ promises w1 !! 2 = Some (Rejected boom) /\ queue w1 = [].
Proof. vm_compute. done. Qed.

(** Scenario D: with a listener of ["error"], [emit] resolves [true], the
    listener of ["error"] receives the error and the second listener is
    applied; all three are applied before [emit] returns its promise. *)
Example scenario_D :
  let w1 := run throws_first 4 (snd (emitImpl throws_first "x" [] world_D)) in
  called (snd (emitImpl throws_first "x" [] world_D)) = [0; 2; 1]
  /\ called w1 = [0; 2; 1]
  /\ promises w1 !! 3 = Some (Resolved true)
  /\ nth 3 (emitted w1) ("", []) = ("x", [])
  /\ nth 4 (emitted w1) ("", []) = ("error", [boom])
  /\ queue w1 = [].
Proof. vm_compute. done. Qed.

(** Scenario E: the first listener cancels the signal; the second one is
    not applied and [emit] resolves [true]. *)
Example scenario_E :
  let w1 := run cancels_first 4 (snd (emitImpl cancels_first "x" [VObj 0] world_E)) in
  called w1 = [0] /\ promises w1 !! 2 = Some (Resolved true) /\ queue w1 = [].
Proof. vm_compute. done. Qed.

(** [on(e, f)] then [off(e, f)]: [emit(e)] resolves [false] and one
    [removeListener] was emitted. *)
Example on_then_off :
  let w := offImpl quiet (Some "x") (Some 1) (onImpl quiet "x" 1 VUndefined initialize) in
  listenerMap w = []
  /\ emitted w = [("newListener", [VStr "x"; VFun 1]);
                  ("removeListener", [VStr "x"; VFun 1])]
  /\ promises (snd (emitImpl quiet "x" [] w)) !! 2 = Some (Resolved false).
Proof. vm_compute. done. Qed.

(** The same function registered twice is two entries; removing one leaves
    the other. *)
Example registered_twice :
  let w := onImpl quiet "x" 1 VUndefined (onImpl quiet "x" 1 VUndefined initialize) in
  listeners_of w "x" = [1; 1]
  /\ listeners_of (offImpl quiet (Some "x") (Some 1) w) "x" = [1].
Proof. vm_compute. done. Qed.

(** Scenario D with a listener whose promise rejects: the error is
    forwarded when the emission resumes. *)
Example scenario_D_async :
  let w := snd (emitImpl rejects_first "x" []
                  (onImpl rejects_first "error" 2 VUndefined
                     (two_on_x rejects_first initialize))) in
  called w = [0]
  /\ called (run rejects_first 4 w) = [0; 2; 1]
  /\ promises (run rejects_first 4 w) !! 3 = Some (Resolved true)
  /\ queue (run rejects_first 4 w) = [].
Proof. vm_compute. done. Qed.

(** [for ... in] over the names b, 2, a, 1, created in this order, visits
    1, 2, b, a; so does [off()] when it emits [removeListener]. *)
Example for_in_order :
  let w := onImpl quiet "1" 4 VUndefined
             (onImpl quiet "a" 3 VUndefined
                (onImpl quiet "2" 2 VUndefined
                   (onImpl quiet "b" 1 VUndefined initialize))) in
  map fst (listenerMap w) = ["b"; "2"; "a"; "1"]
  /\ map fst (for_in (listenerMap w)) = ["1"; "2"; "b"; "a"]
  /\ removals (emitted (offImpl quiet None None w))
     = [("removeListener", [VStr "1"; VFun 4]);
        ("removeListener", [VStr "2"; VFun 2]);
        ("removeListener", [VStr "b"; VFun 1]);
        ("removeListener", [VStr "a"; VFun 3])].
Proof. vm_compute. done. Qed.

(** ** The claims at concrete inputs *)

(** [emit] with a listener registered that throws and nobody listening
    to ["error"]: it is rejected, it does not resolve [true]. *)
Example emit_rejected_scenario :
  let w1 := run throws_first 2 (snd (emitImpl throws_first "x" [] world_C)) in
  listeners_of world_C "x" = [0; 1]
  /\ fst (emitImpl throws_first "x" [] world_C) = 2
  /\ queue w1 = []
  /\ promises w1 !! 2 = Some (Rejected boom)
  /\ promises w1 !! 2 <> Some (Resolved true).
Proof. vm_compute. repeat split; done. Qed.

Lemma emit_resolves_witness :
  let w := onImpl quiet "x" 1 VUndefined initialize in
  registry_ok w
  /\ promises (snd (emitImpl quiet "y" [] w)) !! 1 = Some (Resolved false)
  /\ promises (run quiet 2 (snd (emitImpl quiet "x" [] w))) !! 1
     = Some (Resolved true).
Proof.
  intros w.
  assert (registry_ok w) as Hok by (apply onImpl_ok, initialize_ok).
  split; [exact Hok|]. split.
  - destruct (emit_resolves quiet "y" [] w Hok eq_refl) as [Hnone _].
    apply Hnone. reflexivity.
  - destruct (emit_resolves quiet "x" [] w Hok eq_refl) as [_ Hsome].
    destruct Hsome as [_ Hrun]; [discriminate|].
    destruct (Hrun 2) as [Htrue|[v Hrej]];
      [vm_compute; lia|exact Htrue|vm_compute in Hrej; discriminate].
Defined.

Lemma error_rejects_witness :
  map_get (listenerMap world_C) "error" = None
  /\ iterate throws_first (emit_error throws_first)
       [mkEntry 0 (VNum 0); mkEntry 1 (VNum 0)] 2 "x" [] None 0 0 world_C
     = settle 2 (Rejected boom) (record_call 2 "x" [] (mkEntry 0 (VNum 0)) [] world_C)
  /\ step rejects_first (snd (emitImpl rejects_first "x" []
                               (two_on_x rejects_first initialize)))
     = Some (settle 2 (Rejected boom)
               (set_queue [] (snd (emitImpl rejects_first "x" []
                                     (two_on_x rejects_first initialize))))).
Proof.
  split; [reflexivity|]. split.
  - destruct (error_rejects throws_first "x" boom world_C) as (Hsync & _ & _).
    + right. left. reflexivity.
    + apply Hsync. reflexivity.
  - destruct (error_rejects rejects_first "x" boom
                (snd (emitImpl rejects_first "x" []
                        (two_on_x rejects_first initialize)))) as (_ & Hasync & _).
    + right. left. reflexivity.
    + apply (Hasync (mkFrame 2 "x" [] None 0 1 (Failed boom)) []); reflexivity.
Defined.



Lemma cancelled_stops_witness :
  let w := snd (emitImpl cancels_first "x" [VObj 0] world_E) in
  listeners_of w "x" = [0; 1]
  /\ promises (run cancels_first 3 w) !! 2 = Some (Resolved true)
  /\ called_by 2 (run cancels_first 3 w) = [0].
Proof.
  intros w. split; [reflexivity|].
  destruct (cancelled_stops cancels_first w
              (mkFrame 2 "x" [VObj 0] (Some (VObj 0)) 0 1 Fulfilled) [] (VObj 0))
    as [_ Hrun].
  - reflexivity.
  - reflexivity.
  - reflexivity.
  - reflexivity.
  - vm_compute. lia.
  - constructor.
  - destruct (Hrun 3) as [Htrue Hcalled]; [lia|].
    split; [exact Htrue|]. etransitivity; [exact Hcalled|reflexivity].
Defined.

Lemma registry_invariant_witness :
  let w := onImpl quiet "x" 1 ListenerType.PASSIVE initialize in
  registry_ok w
  /\ registry_ok (onImpl quiet "x" 2 (VBool true) w)
  /\ registry_ok (offImpl quiet (Some "x") (Some 1) w).
Proof.
  intros w.
  assert (registry_ok w) as Hok by (apply onImpl_ok, initialize_ok).
  destruct (registry_invariant quiet w Hok) as (Hon & _ & _ & Hoff).
  split; [exact Hok|]. split; [apply Hon|apply Hoff].
Defined.

(** C7: a tier that is none of the documented ones.  On an event that has
    listeners the [switch] of [onImpl] matches no case: the listener is
    not inserted and [emit] does not apply it, yet the call returns and
    [newListener] is emitted for it.  On an event without listeners the
    same call inserts the listener as an active one. *)
Theorem invalid_tier_dropped :
  let w := onImpl quiet "x" 2 (VNum 3) (onImpl quiet "x" 1 ListenerType.ACTIVE initialize) in
  valid_type (VNum 3) = false
  /\ listeners_of w "x" = [1]
  /\ emitted w = [("newListener", [VStr "x"; VFun 1]);
                  ("newListener", [VStr "x"; VFun 2])]
  /\ called_by 2 (run quiet 4 (snd (emitImpl quiet "x" [] w))) = [1]
  /\ promises (run quiet 4 (snd (emitImpl quiet "x" [] w))) !! 2 = Some (Resolved true)
  /\ listeners_of (onImpl quiet "x" 2 ListenerType.ACTIVE
                     (onImpl quiet "x" 1 ListenerType.ACTIVE initialize)) "x" = [1; 2]
  /\ get_set (onImpl quiet "y" 2 (VNum 3) initialize) "y"
     = Some (mkSet [mkEntry 2 (VNum 3)] 1).
Proof. vm_compute. repeat split; done. Qed.

(** An [Event] whose [cancellable] is 1 is the governing signal, although
    1 is not [true]. *)
Lemma governing_signal_counterexample :
  Event.instanceofEvent heap_one (VObj 0) = true
  /\ strict_eq (Event.get_cancellable heap_one (VObj 0)) (VBool true) = false
  /\ governing_signal heap_one [VObj 0] = Some (VObj 0).
Proof. vm_compute. done. Qed.



(** The same with a listener of ["error"]: the first listener throws, the
    error is forwarded, the check stops the emission and [emit] resolves
    [true]. *)
Example funneled_with_signal_set :
  let w1 := run throws_first 3 (snd (emitImpl throws_first "x" [VObj 0] world_I)) in
  listeners_of world_I "x" = [0; 1]
  /\ listeners_of world_I "error" = [2]
  /\ called_by 3 w1 = [0]
  /\ promises w1 !! 3 = Some (Resolved true).
Proof. vm_compute. done. Qed.

Lemma emit_inherited_name_witness :
  listeners_of initialize "toString" = []
  /\ promises (snd (emitImpl quiet "toString" [] initialize)) !! 0
     = Some (Rejected TypeError)
  /\ trace (snd (emitImpl quiet "toString" [] initialize)) = [].
Proof.
  destruct (emit_inherited_name quiet "toString" [] initialize eq_refl eq_refl)
    as (Hnone & Hrej & _ & Htrace & _).
  split; [exact Hnone|]. split; [exact Hrej|exact Htrace].
Defined.

Lemma on_inherited_name_witness :
  valid_type VUndefined = true
  /\ thrown (onImpl quiet "constructor" 1 VUndefined initialize) = [TypeError]
  /\ listeners_of (onImpl quiet "constructor" 1 VUndefined initialize) "constructor"
     = []
  /\ emitted (onImpl quiet "constructor" 1 VUndefined initialize) = [].
Proof.
  split; [reflexivity|].
  destruct (on_inherited_name quiet "constructor" 1 VUndefined initialize
              eq_refl eq_refl eq_refl) as (_ & Hthrown & Hnone & Hemitted & _).
  split; [exact Hthrown|]. split; [exact Hnone|exact Hemitted].
Defined.

(** C6: [off] emits [removeListener] between the [splice] and the
    adjustment of [passiveIdx].  With the active listener 1 and the
    passive listener 2 on ["x"] and listener 5 on ["removeListener"],
    [off("x", 1)] is [fix_up] after the emission in the world
    [splice_out] leaves, where the set of ["x"] holds the passive
    listener alone below [passiveIdx] = 1: the registry in which listener
    5 is applied, within the call, does not satisfy the invariant.  When
    listener 5 calls [on("x", 7)] there and returns, the active listener
    7 is inserted at index 1, behind the passive one, and the adjustment
    leaves the set with [passiveIdx] = 1 over a passive entry at index 0
    and an active one at index 1.  [onImpl] changes the set first and
    emits [newListener] afterwards.  The listeners of this development do
    not call the emitter, so the call of [on] by listener 5 is written
    out here at the place where listener 5 returns. *)
Theorem off_emits_before_fix_up :
  let window := splice_out 0 0 world_R in
  let emission := snd (emitImpl quiet "removeListener" [VStr "x"; VFun 1] window) in
  let reentered := onImpl quiet "x" 7 VUndefined emission in
  registry_ok world_R
  /\ get_set world_R "x" = Some (mkSet [mkEntry 1 (VNum 0); mkEntry 2 (VNum 1)] 1)
  /\ listeners_of world_R "removeListener" = [5]
  /\ offImpl quiet (Some "x") (Some 1) world_R = fix_up "x" 0 0 emission
  /\ get_set window "x" = Some (mkSet [mkEntry 2 (VNum 1)] 1)
  /\ ~ registry_ok window
  /\ called emission = [5]
  /\ get_set reentered "x"
     = Some (mkSet [mkEntry 2 (VNum 1); mkEntry 7 (VNum 0)] 2)
  /\ get_set (fix_up "x" 0 0 reentered) "x"
     = Some (mkSet [mkEntry 2 (VNum 1); mkEntry 7 (VNum 0)] 1)
  /\ ~ registry_ok (fix_up "x" 0 0 reentered).
Proof.
  intros window emission reentered.
  assert (forall w s, get_set w "x" = Some s ->
            non_passive <$> listeners s !! 0 = Some false ->
            0 < passiveIdx s -> ~ registry_ok w) as Hbroken.
  { intros w s Hget Hfirst Hidx [Hok _]. unfold get_set in Hget.
    destruct (map_get (listenerMap w) "x") as [l|] eqn:Hl; [|done].
    destruct (Hok "x" l Hl) as (s' & Hs' & _ & Hgood & _).
    rewrite Hget in Hs'. injection Hs' as <-.
    destruct (listeners s !! 0) as [e|] eqn:He; [|done].
    injection Hfirst as Hfirst.
    destruct (Hgood 0 e He) as [Hbelow _]. rewrite Hbelow in Hfirst; done. }
  split; [unfold world_R, addPassiveListenerImpl; repeat apply onImpl_ok;
          apply initialize_ok|].
  repeat split; try reflexivity.
  - by apply (Hbroken window (mkSet [mkEntry 2 (VNum 1)] 1)); [| |simpl; lia].
  - by apply (Hbroken (fix_up "x" 0 0 reentered)
                (mkSet [mkEntry 2 (VNum 1); mkEntry 7 (VNum 0)] 1));
      [| |simpl; lia].
Qed.

(** ** Further properties of the registry *)

Lemma indexOf_None a f : indexOf a f = None <-> f ∉ map fn a.
Proof.
  induction a as [|e a IH]; simpl.
  - split; [intros _; apply not_elem_of_nil|done].
  - case_bool_decide as Hf.
    + split; [done|]. intros Hnot. exfalso. apply Hnot. rewrite Hf. apply list_elem_of_here.
    + destruct (indexOf a f) as [i|] eqn:Hi; simpl.
      * split; [done|]. intros Hnot. exfalso.
        assert (f ∉ map fn a) as Hnot' by (intros Hin; apply Hnot; by apply list_elem_of_further).
        by apply IH in Hnot'.
      * split; [|done]. intros _. apply not_elem_of_cons. split; [congruence|].
        by apply IH.
Qed.


Section Removal.

Variable behave : Listener -> list Value -> Heap -> Outcome * Heap.

(** X1: [off(eventName, listener)] with a listener that is not registered
    for the event (or an event that has no listeners), for a name that
    is neither empty nor inherited from [Object.prototype], changes
    nothing: the registry is as it was, no [removeListener] is emitted and
    nothing is thrown. *)
Theorem off_absent_noop ev f w :
  ev <> "" ->
  inherited ev = false ->
  f ∉ listeners_of w ev ->
  offImpl behave (Some ev) (Some f) w = w.
Proof.
  intros Hev Hinh Hnot. unfold offImpl, no_event_name. simpl.
  rewrite (bool_decide_eq_false_2 _ Hev). simpl.
  unfold remove_listener. unfold listeners_of, get_set in Hnot.
  destruct (map_get (listenerMap w) ev) as [l|]; [|by rewrite Hinh].
  destruct (sets w !! l) as [s|]; [|done].
  apply indexOf_None in Hnot. by rewrite Hnot.
Qed.

End Removal.

Lemma off_absent_noop_witness :
  (4 ∉ listeners_of world_XY "x")
  /\ offImpl quiet (Some "x") (Some 4) world_XY = world_XY
  /\ offImpl quiet (Some "z") (Some 1) world_XY = world_XY.
Proof.
  assert (4 ∉ listeners_of world_XY "x") as Hnot.
  { vm_compute. intros Hin. repeat (apply elem_of_cons in Hin as [Hin|Hin]; [discriminate|]).
    by apply elem_of_nil in Hin. }
  split; [exact Hnot|]. split.
  - apply (off_absent_noop quiet "x" 4 world_XY); [discriminate|reflexivity|exact Hnot].
  - apply (off_absent_noop quiet "z" 1 world_XY); [discriminate|reflexivity|].
    vm_compute. apply not_elem_of_nil.
Defined.

Section Removal_one.

Variable behave : Listener -> list Value -> Heap -> Outcome * Heap.

Lemma listeners_of_same w w' ev :
  listenerMap w' = listenerMap w -> sets w' = sets w ->
  listeners_of w' ev = listeners_of w ev.
Proof. intros Hm Hs. unfold listeners_of, get_set. by rewrite Hm, Hs. Qed.



End Removal_one.


Section Removal_event.

Variable behave : Listener -> list Value -> Heap -> Outcome * Heap.


(** X23: [off(eventName)] and [off(eventName, listener)] for a name
    inherited from [Object.prototype] that is no own key throw a
    [TypeError] and change nothing: [set] is the inherited member, and
    [listeners.length] or [set.listeners.indexOf] is read from
    [undefined]. *)
Theorem off_inherited_name ev listener w :
  inherited ev = true ->
  map_get (listenerMap w) ev = None ->
  offImpl behave (Some ev) listener w = raise TypeError w.
Proof.
  intros Hinh Hnone.
  assert (no_event_name (Some ev) = false) as Hname.
  { unfold no_event_name. simpl. destruct ev; [done|]. reflexivity. }
  unfold offImpl. rewrite Hname. unfold remove_event, remove_listener.
  by destruct listener; rewrite Hnone, Hinh.
Qed.

End Removal_event.

Lemma off_inherited_name_witness :
  thrown (offImpl quiet (Some "toString") None world_XY) = [TypeError]
  /\ listenerMap (offImpl quiet (Some "hasOwnProperty") (Some 1) world_XY)
     = listenerMap world_XY.
Proof.
  rewrite (off_inherited_name quiet "toString" None world_XY eq_refl eq_refl).
  rewrite (off_inherited_name quiet "hasOwnProperty" (Some 1) world_XY eq_refl eq_refl).
  split; reflexivity.
Defined.


(** ** Further properties of the registration *)

Section Registration.

Variable behave : Listener -> list Value -> Heap -> Outcome * Heap.







(** X9: the listener is inserted before [newListener] is emitted, so that
    the first listener registered for ["newListener"] is applied to its
    own registration. *)
Theorem newListener_hears_itself f type w :
  map_get (listenerMap w) "newListener" = None ->
  exists more,
    trace (onImpl behave "newListener" f type w)
    = trace w
      ++ mkCall (length (promises w)) "newListener" f
           [VStr "newListener"; VFun f] :: more.
Proof.
  intros Hnone.
  pose proof (onImpl_get_set behave "newListener" f type w) as Hget.
  unfold get_set at 2 in Hget. rewrite Hnone, inherited_newListener in Hget.
  unfold onImpl, get_set in *.
  destruct (register_Some "newListener" f type w (or_intror inherited_newListener))
    as (w' & Hreg).
  rewrite Hreg in *.
  destruct (emitImpl_registry behave "newListener" [VStr "newListener"; VFun f] w')
    as [Hm Hs].
  rewrite Hm, Hs in Hget.
  destruct (map_get (listenerMap w') "newListener") as [l|] eqn:Hl; [|done].
  destruct (emitImpl_applies_first behave "newListener" [VStr "newListener"; VFun f]
              w' l (mkEntry f (normalize_type type)) [] Hl) as (more & Hmore).
  - unfold live_listeners. by rewrite Hget.
  - exists more. rewrite Hmore.
    destruct (register_logs _ _ _ _ _ Hreg) as (_ & _ & -> & _ & -> & _). done.
Qed.

End Registration.






(** The active listener 9 goes between the active 1 and the passive 2. *)
Example active_between_example :
  listeners_of (onImpl quiet "x" 9 VUndefined world_XY) "x" = [1; 9; 2].
Proof. reflexivity. Qed.


Lemma newListener_hears_itself_witness :
  exists more,
    trace (onImpl quiet "newListener" 5 VUndefined initialize)
    = [] ++ mkCall 0 "newListener" 5 [VStr "newListener"; VFun 5] :: more.
Proof. exact (newListener_hears_itself quiet 5 VUndefined initialize eq_refl). Defined.

(** ** Registration and removal together *)


Section Round_trip.

Variable behave : Listener -> list Value -> Heap -> Outcome * Heap.




(** X11: after [off()] (or [removeAllListeners()]) no event has a
    listener: every [emit] of a name that is not inherited from
    [Object.prototype] resolves [false] at once and applies nothing. *)
Theorem off_all_clears listener ev args w :
  inherited ev = false ->
  let w' := offImpl behave None listener w in
  listenerMap w' = []
  /\ promises (snd (emitImpl behave ev args w')) !! fst (emitImpl behave ev args w')
     = Some (Resolved false)
  /\ trace (snd (emitImpl behave ev args w')) = trace w'
  /\ queue (snd (emitImpl behave ev args w')) = queue w'.
Proof.
  intros Hinh w'. assert (listenerMap w' = []) as Hm by done. clearbody w'.
  split; [done|]. rewrite emitImpl_promise. unfold emitImpl, emit_with. simpl.
  rewrite Hm, Hinh. simpl. repeat split. unfold settle. simpl.
  apply list_lookup_insert_eq. rewrite length_app. simpl. lia.
Qed.

(** X12: [off] takes the listener out of the array before it emits
    [removeListener], so that the only listener of ["removeListener"] is
    not applied to its own removal. *)
Theorem removeListener_misses_itself f w :
  registry_ok w ->
  listeners_of w "removeListener" = [f] ->
  trace (offImpl behave (Some "removeListener") (Some f) w) = trace w
  /\ map_get (listenerMap (offImpl behave (Some "removeListener") (Some f) w))
             "removeListener" = None.
Proof.
  intros [Hok _] Hls. unfold offImpl, no_event_name. simpl.
  unfold remove_listener, splice_out, fix_up. unfold listeners_of, get_set in Hls.
  destruct (map_get (listenerMap w) "removeListener") as [l|] eqn:Hl; [|done].
  destruct (Hok _ l Hl) as (s & Hs & _). rewrite Hs in *.
  destruct (listeners s) as [|e [|e' rest]] eqn:Hes; try done.
  injection Hls as Hfn. simpl. rewrite (bool_decide_eq_true_2 _ Hfn). simpl.
  pose proof (lookup_lt_Some _ _ _ Hs) as Hlt.
  unfold emitImpl, emit_with. simpl. rewrite Hl. simpl.
  unfold next_listener, live_listeners. simpl.
  rewrite list_lookup_insert_eq by done. simpl.
  rewrite list_lookup_insert_eq by done. simpl.
  split; [done|]. apply map_get_delete_eq.
Qed.

End Round_trip.


Lemma off_all_clears_witness :
  listenerMap (offImpl quiet None None world_XY) = []
  /\ promises (snd (emitImpl quiet "x" [] (offImpl quiet None None world_XY)))
       !! fst (emitImpl quiet "x" [] (offImpl quiet None None world_XY))
     = Some (Resolved false).
Proof.
  destruct (off_all_clears quiet None "x" [] world_XY eq_refl) as (Hm & Hfalse & _).
  split; [exact Hm|exact Hfalse].
Defined.

Lemma removeListener_misses_itself_witness :
  let w := onImpl quiet "removeListener" 5 VUndefined initialize in
  listeners_of w "removeListener" = [5]
  /\ trace (offImpl quiet (Some "removeListener") (Some 5) w) = trace w.
Proof.
  intros w. split; [reflexivity|].
  destruct (removeListener_misses_itself quiet 5 w) as [Htrace _].
  - apply onImpl_ok, initialize_ok.
  - reflexivity.
  - exact Htrace.
Defined.

(** ** Further properties of the dispatch *)

Section Delivery.

Variable behave : Listener -> list Value -> Heap -> Outcome * Heap.

(** The loop at a listener that returns, or past the last one. *)
Lemma iterate_returns funnel p ev args l entries k w :
  (forall f h, f ∈ map fn entries -> fst (behave f args h) = Returned) ->
  called_by p w = take k (map fn entries) ->
  p < length (promises w) ->
  (queue (iterate behave funnel (drop k entries) p ev args None l k w)
   = queue w ++ [mkFrame p ev args None l (S k) Fulfilled]
   /\ called_by p (iterate behave funnel (drop k entries) p ev args None l k w)
      = take (S k) (map fn entries))
  \/ (queue (iterate behave funnel (drop k entries) p ev args None l k w) = queue w
      /\ called_by p (iterate behave funnel (drop k entries) p ev args None l k w)
         = map fn entries
      /\ promises (iterate behave funnel (drop k entries) p ev args None l k w) !! p
         = Some (Resolved true)).
Proof.
  intros Hret Hcalled Hp.
  destruct (drop k entries) as [|e rest] eqn:Hdrop; simpl.
  - right. split; [done|]. split.
    + rewrite called_by_settle, Hcalled. apply take_ge.
      apply (f_equal length) in Hdrop. rewrite length_drop in Hdrop.
      rewrite length_map. simpl in Hdrop. lia.
    + unfold settle. simpl. by apply list_lookup_insert_eq.
  - left. apply drop_cons_inv in Hdrop as [He _].
    unfold apply_listener.
    pose proof (Hret (fn e) (heap w)) as Hout.
    destruct (behave (fn e) args (heap w)) as [out h']. simpl in Hout.
    rewrite Hout.
    + split; [done|].
      change (called_by p (record_call p ev args e h' w)
              = take (S k) (map fn entries)).
      rewrite called_by_record, Hcalled.
      symmetry. apply take_S_r. by apply map_lookup.
    + apply list_elem_of_lookup. exists k. by apply map_lookup.
Qed.

Lemma delivering_step p ev args l ls w w' :
  (forall f h, f ∈ ls -> fst (behave f args h) = Returned) ->
  delivering p ev args l ls w -> step behave w = Some w' ->
  delivering p ev args l ls w'.
Proof.
  intros Hret (Hp & Hls & Hshape). unfold step.
  destruct (queue w) as [|f q] eqn:Hqueue; [done|]. intros [= <-].
  destruct (resume_effect behave f (set_queue q w))
    as ([_ Hs] & (qx & Hqx & Hfx) & (tx & Htx & Hcx) & Hl & Ho & _).
  simpl in Hs, Hqx, Htx, Hl, Ho.
  assert (map fn (live_listeners (resume behave f (set_queue q w)) l) = ls) as Hls'
    by (unfold live_listeners in *; by rewrite Hs).
  assert (f_promise f <> p ->
          called_by p (resume behave f (set_queue q w)) = called_by p w
          /\ Forall (fun h => f_promise h <> p) qx
          /\ promises (resume behave f (set_queue q w)) !! p = promises w !! p)
    as Hother.
  { intros Hne. split; [|split].
    - apply (called_by_quiet p (set_queue q w) _ tx Htx).
      eapply Forall_impl; [exact Hcx|]. simpl. intros c [?|?]; lia.
    - eapply Forall_impl; [exact Hfx|]. simpl. intros g [[? _]|?]; lia.
    - apply Ho; [done|congruence]. }
  split; [lia|]. split; [done|].
  destruct Hshape as [(k & q1 & q2 & Hq & Hcalled & Hq1 & Hq2)
                     |(Hnone & Hcalled & Hdone)].
  - destruct q1 as [|h q1]; simpl in Hq; simplify_eq.
    + (* the frame of the emission is resumed *)
      unfold resume, after_listener. simpl. unfold next_listener.
      destruct (iterate_returns (emit_error behave) p ev args l
                  (live_listeners (set_queue q2 w) l) k (set_queue q2 w))
        as [[Hq' Hc']|(Hq' & Hc' & Hp')]; try done.
      * left. exists (S k), q2, []. by rewrite Hq'.
      * right. rewrite Hq'. by repeat split.
    + (* another frame is resumed *)
      apply Forall_cons in Hq1 as [Hh Hq1].
      destruct (Hother Hh) as (Hsame & Hfx' & _).
      left. exists k, q1, (q2 ++ qx). rewrite Hqx, <- app_assoc. simpl.
      repeat split; try done; [by rewrite Hsame|by apply Forall_app].
  - apply Forall_cons in Hnone as [Hf Hnone].
    destruct (Hother Hf) as (Hsame & Hfx' & Hkeep).
    right. rewrite Hqx. repeat split; [by apply Forall_app|by rewrite Hsame|].
    by rewrite Hkeep.
Qed.

Lemma delivering_run p ev args l ls fuel : forall w,
  (forall f h, f ∈ ls -> fst (behave f args h) = Returned) ->
  delivering p ev args l ls w -> delivering p ev args l ls (run behave fuel w).
Proof.
  induction fuel as [|fuel IH]; intros w Hret Hd; simpl; [done|].
  destruct (step behave w) as [w'|] eqn:Hs; [|done].
  apply IH; [done|]. by eapply delivering_step.
Qed.

Lemma emitImpl_delivering ev args w l :
  world_ok w ->
  map_get (listenerMap w) ev = Some l ->
  governing_signal (heap w) args = None ->
  (forall f h, f ∈ listeners_of w ev -> fst (behave f args h) = Returned) ->
  delivering (length (promises w)) ev args l (listeners_of w ev)
             (snd (emitImpl behave ev args w)).
Proof.
  intros Hok Hl Hsig Hret. destruct (world_ok_fresh w Hok) as [Hfresh Hnone].
  destruct (emitImpl_registry behave ev args w) as [_ Hs].
  split; [apply emitImpl_longer|]. split.
  { unfold listeners_of, get_set, live_listeners. rewrite Hl, Hs.
    by destruct (sets w !! l). }
  unfold emitImpl, emit_with. simpl. rewrite Hl, Hsig. simpl.
  set (w1 := set_emitted _ _). unfold next_listener.
  assert (map fn (live_listeners w1 l) = listeners_of w ev) as Hls.
  { unfold listeners_of, get_set, live_listeners. rewrite Hl. simpl.
    by destruct (sets w !! l). }
  destruct (iterate_returns (emit_error behave) (length (promises w)) ev args l
              (live_listeners w1 l) 0 w1)
    as [[Hq' Hc']|(Hq' & Hc' & Hp')].
  - by rewrite Hls.
  - done.
  - subst w1. simpl. rewrite length_app. simpl. lia.
  - left. exists 1, (queue w), []. rewrite Hq', Hc', Hls. by repeat split.
  - right. rewrite Hq', Hc', Hls. by repeat split.
Qed.

(** Once the queue is drained, the emission has delivered to all. *)
Lemma emitImpl_delivers ev args w l fuel :
  world_ok w ->
  map_get (listenerMap w) ev = Some l ->
  governing_signal (heap w) args = None ->
  (forall f h, f ∈ listeners_of w ev -> fst (behave f args h) = Returned) ->
  fuel_bound (snd (emitImpl behave ev args w)) <= fuel ->
  called_by (length (promises w)) (run behave fuel (snd (emitImpl behave ev args w)))
  = listeners_of w ev
  /\ promises (run behave fuel (snd (emitImpl behave ev args w)))
       !! length (promises w)
     = Some (Resolved true).
Proof.
  intros Hok Hl Hsig Hret Hfuel.
  pose proof (delivering_run _ ev args l _ fuel _ Hret
                (emitImpl_delivering ev args w l Hok Hl Hsig Hret))
    as (_ & _ & [(k & q1 & q2 & Hq & _)|(_ & Hcalled & Hdone)]).
  - rewrite (run_drains behave fuel _ Hfuel) in Hq. by destruct q1.
  - done.
Qed.

(** X13: in a run of the microtask queue during which the registry is
    not changed, when the first argument is no governing signal and every
    listener of the event returns at once, [emit] applies all the
    listeners of the event, each registration once, in the order of the
    array, and resolves [true], whatever other emissions are under way. *)
Theorem emit_applies_all ev args w :
  world_ok w ->
  map_get (listenerMap w) ev <> None ->
  governing_signal (heap w) args = None ->
  (forall f h, f ∈ listeners_of w ev -> fst (behave f args h) = Returned) ->
  forall fuel, fuel_bound (snd (emitImpl behave ev args w)) <= fuel ->
    called_by (fst (emitImpl behave ev args w))
              (run behave fuel (snd (emitImpl behave ev args w)))
    = listeners_of w ev
    /\ promises (run behave fuel (snd (emitImpl behave ev args w)))
         !! fst (emitImpl behave ev args w)
       = Some (Resolved true).
Proof.
  intros Hok Hset Hsig Hret fuel Hfuel. rewrite emitImpl_promise.
  destruct (map_get (listenerMap w) ev) as [l|] eqn:Hl; [|done].
  by eapply emitImpl_delivers.
Qed.

End Delivery.

Lemma quiet_returns f args h : fst (quiet f args h) = Returned.
Proof. unfold quiet, scripted. by destruct f. Qed.

Lemma world_XY_world_ok : world_ok world_XY.
Proof. repeat apply onImpl_world_ok. apply initialize_world_ok. Qed.

Lemma emit_applies_all_witness :
  called_by 3 (run quiet 3 (snd (emitImpl quiet "x" [] world_XY))) = [1; 2]
  /\ promises (run quiet 3 (snd (emitImpl quiet "x" [] world_XY))) !! 3
     = Some (Resolved true).
Proof.
  apply (emit_applies_all quiet "x" [] world_XY world_XY_world_ok).
  - discriminate.
  - reflexivity.
  - intros f h _. apply quiet_returns.
  - vm_compute. lia.
Defined.



Section Dispatch.

Variable behave : Listener -> list Value -> Heap -> Outcome * Heap.

(** X14: in a run of the microtask queue during which the registry is
    not changed (no call of [on] or [off] between the microtasks or by a
    listener), an emission applies registered listeners only: a function
    that is not registered for the event when [emit] is called is not
    applied by that emission. *)
Theorem emit_only_registered ev args w f fuel :
  world_ok w ->
  f ∉ listeners_of w ev ->
  f ∉ called_by (fst (emitImpl behave ev args w))
                (run behave fuel (snd (emitImpl behave ev args w))).
Proof.
  intros Hok Hnot Hin.
  destruct (emit_in_order behave ev args w fuel Hok) as [k Hk].
  rewrite Hk in Hin. apply Hnot. by apply (subseteq_take k).
Qed.

Lemma finished_run_finished p fuel : forall w,
  finished p w -> finished p (run behave fuel w).
Proof.
  induction fuel as [|fuel IH]; intros w Hfin; simpl; [done|].
  destruct (step behave w) as [w'|] eqn:Hs; [|done].
  apply IH. by destruct (finished_step behave p w w' Hfin Hs).
Qed.

Lemma frames_of_none p q :
  Forall (fun h => f_promise h <> p) q -> frames_of p q = [].
Proof.
  intros Hq. unfold frames_of. apply filter_none.
  eapply Forall_impl; [exact Hq|]. done.
Qed.

(** X15: the listeners of one emission are applied one after the other:
    at any time at most one frame of the emission is suspended, while the
    frames of other emissions may be in the queue with it. *)
Theorem one_frame_at_most ev args w fuel :
  world_ok w ->
  length (frames_of (fst (emitImpl behave ev args w))
                    (queue (run behave fuel (snd (emitImpl behave ev args w)))))
  <= 1.
Proof.
  intros Hok. rewrite emitImpl_promise.
  destruct (map_get (listenerMap w) ev) as [l|] eqn:Hl.
  - destruct (on_track_run behave _ l _ fuel _
                (emitImpl_on_track behave ev args w l Hok Hl))
      as (_ & _ & k & _ & [(q1 & g & q2 & -> & Hg & _ & _ & Hq1 & Hq2)|Hnone]).
    + unfold frames_of. rewrite filter_app, filter_cons_True by done.
      rewrite (filter_none _ q1), (filter_none _ q2)
        by (eapply Forall_impl; [eassumption|done]).
      simpl. lia.
    + rewrite frames_of_none by done. simpl. lia.
  - destruct (world_ok_fresh w Hok) as [Hfresh _].
    rewrite frames_of_none; [simpl; lia|].
    apply (finished_run_finished (length (promises w)) fuel).
    split; [apply emitImpl_longer|].
    unfold emitImpl, emit_with. simpl. rewrite Hl. by destruct (inherited ev).
Qed.

(** X16: an emission never changes the registry: the names and the sets
    are the same after the call and after any number of microtasks. *)
Theorem emit_keeps_registry ev args w fuel :
  listenerMap (run behave fuel (snd (emitImpl behave ev args w))) = listenerMap w
  /\ sets (run behave fuel (snd (emitImpl behave ev args w))) = sets w
  /\ forall ev',
       listeners_of (run behave fuel (snd (emitImpl behave ev args w))) ev'
       = listeners_of w ev'.
Proof.
  destruct (run_registry behave fuel (snd (emitImpl behave ev args w))) as [Hm Hs].
  destruct (emitImpl_registry behave ev args w) as [Hm' Hs'].
  rewrite Hm' in Hm. rewrite Hs' in Hs. split; [done|]. split; [done|].
  intros ev'. by apply listeners_of_same.
Qed.


End Dispatch.

Lemma emit_only_registered_witness :
  (9 ∉ listeners_of world_XY "x")
  /\ (9 ∉ called_by (fst (emitImpl quiet "x" [] world_XY))
                   (run quiet 3 (snd (emitImpl quiet "x" [] world_XY)))).
Proof.
  assert (9 ∉ listeners_of world_XY "x") as Hnot.
  { vm_compute. intros Hin.
    repeat (apply elem_of_cons in Hin as [Hin|Hin]; [discriminate|]).
    by apply elem_of_nil in Hin. }
  split; [exact Hnot|].
  exact (emit_only_registered quiet "x" [] world_XY 9 3 world_XY_world_ok Hnot).
Defined.

Lemma one_frame_at_most_witness :
  length (frames_of 3 (queue (run quiet 1 (snd (emitImpl quiet "x" [] world_XY)))))
  <= 1.
Proof. exact (one_frame_at_most quiet "x" [] world_XY 1 world_XY_world_ok). Defined.


Section Arguments.

Variable behave : Listener -> list Value -> Heap -> Outcome * Heap.

(** The frames and the calls the loop adds for its emission. *)
Lemma iterate_uniform p ev args event l rest : forall k w,
  p < length (promises w) ->
  exists qx tx,
    queue (iterate behave (emit_error behave) rest p ev args event l k w)
    = queue w ++ qx
    /\ trace (iterate behave (emit_error behave) rest p ev args event l k w)
       = trace w ++ tx
    /\ Forall (fun g => f_promise g = p -> f_name g = ev /\ f_args g = args) qx
    /\ Forall (fun c => c_promise c = p -> c_event c = ev /\ c_args c = args) tx.
Proof.
  induction rest as [|e rest IH]; intros k w Hp; simpl.
  - exists [], []. rewrite !app_nil_r. by repeat split.
  - unfold apply_listener. destruct (behave (fn e) args (heap w)) as [out h'].
    set (w1 := record_call p ev args e h' w).
    assert (Forall (fun c => c_promise c = p -> c_event c = ev /\ c_args c = args)
                   [mkCall p ev (fn e) args]) as Hcall by (by repeat constructor).
    destruct out as [|error|error].
    + eexists [_], [_]. split; [done|]. split; [done|]. split; [|done].
      by repeat constructor.
    + unfold catch.
      destruct (bool_decide (ev = "error") || no_error_listener w1).
      { exists [], [mkCall p ev (fn e) args]. rewrite app_nil_r. by repeat split. }
      destruct (emit_error_effect behave (length (promises w1)) "" error w1)
        as (_ & (qx1 & Hq1 & Hf1) & (tx1 & Ht1 & Hc1) & Hl & _).
      change (length (promises w1)) with (length (promises w)) in Hf1, Hc1, Hl.
      assert (Forall (fun g => f_promise g = p -> f_name g = ev /\ f_args g = args) qx1)
        as Hf1'.
      { eapply Forall_impl; [exact Hf1|]. simpl. intros g [[? _]|?] Hg; lia. }
      assert (Forall (fun c => c_promise c = p -> c_event c = ev /\ c_args c = args) tx1)
        as Hc1'.
      { eapply Forall_impl; [exact Hc1|]. simpl. intros c [?|?] Hc; lia. }
      destruct (cancel_requested event (heap (emit_error behave error w1))).
      * exists qx1, (mkCall p ev (fn e) args :: tx1). simpl.
        rewrite Hq1, Ht1. simpl. rewrite <- app_assoc. simpl.
        split; [done|]. split; [done|]. split; [done|].
        constructor; [done|done].
      * destruct (IH (S k) (emit_error behave error w1)) as (qx2 & tx2 & Hq2 & Ht2 & Hf2 & Hc2);
          [lia|].
        exists (qx1 ++ qx2), (mkCall p ev (fn e) args :: tx1 ++ tx2).
        rewrite Hq2, Ht2, Hq1, Ht1. simpl. rewrite <- !app_assoc. simpl.
        split; [done|]. split; [done|]. split; [by apply Forall_app|].
        constructor; [done|]. by apply Forall_app.
    + eexists [_], [_]. split; [done|]. split; [done|]. split; [|done].
      by repeat constructor.
Qed.

Lemma uniform_extend p ev args w w' qx tx :
  uniform p ev args w ->
  length (promises w) <= length (promises w') ->
  queue w' = queue w ++ qx -> trace w' = trace w ++ tx ->
  Forall (fun g => f_promise g = p -> f_name g = ev /\ f_args g = args) qx ->
  Forall (fun c => c_promise c = p -> c_event c = ev /\ c_args c = args) tx ->
  uniform p ev args w'.
Proof.
  intros (Hp & Hq & Ht) Hl Hqx Htx Hf Hc. split; [lia|].
  rewrite Hqx, Htx. split; by apply Forall_app.
Qed.

Lemma uniform_step p ev args w w' :
  uniform p ev args w -> step behave w = Some w' -> uniform p ev args w'.
Proof.
  intros (Hp & Hq & Ht). unfold step.
  destruct (queue w) as [|f q] eqn:Hqueue; [done|]. intros [= <-].
  apply Forall_cons in Hq as [Hf Hq].
  assert (uniform p ev args (set_queue q w)) as Hu by done.
  destruct (resume_effect behave f (set_queue q w))
    as (_ & (qx & Hqx & Hfx) & (tx & Htx & Hcx) & Hl & _).
  destruct (decide (f_promise f = p)) as [Hown|Hother].
  - destruct (Hf Hown) as [Hname Hargs].
    assert (forall w0, uniform p ev args w0 ->
              uniform p ev args (after_listener behave (emit_error behave) f w0))
      as Hafter.
    { intros w0 Hu0. unfold after_listener.
      destruct (cancel_requested (f_event f) (heap w0)).
      - destruct Hu0 as (Hp0 & Hq0 & Ht0). split; [|done].
        unfold settle. simpl. by rewrite length_insert.
      - unfold next_listener. rewrite Hown, Hname, Hargs.
        destruct (iterate_uniform p ev args (f_event f) (f_set f)
                    (drop (f_idx f) (live_listeners w0 (f_set f))) (f_idx f) w0)
          as (qx' & tx' & Hq' & Ht' & Hf' & Hc'); [apply Hu0|].
        eapply uniform_extend; try done.
        match goal with |- context [iterate ?b ?fu ?r ?pp ?e ?a ?g ?s ?i ?x] =>
          destruct (iterate_effect b fu (emit_error_effect b) pp e a g s r i x)
            as (_ & _ & _ & Hl' & _) end.
        exact Hl'. }
    unfold resume. destruct (f_pending f) as [|error]; [by apply Hafter|].
    unfold catch.
    destruct (bool_decide (f_name f = "error") || no_error_listener (set_queue q w)).
    + destruct Hu as (Hp0 & Hq0 & Ht0). split; [|done].
      unfold settle. simpl. by rewrite length_insert.
    + apply Hafter.
      destruct (emit_error_effect behave (length (promises w)) "" error (set_queue q w))
        as (_ & (qx1 & Hq1 & Hf1) & (tx1 & Ht1 & Hc1) & Hl1 & _).
      eapply (uniform_extend p ev args (set_queue q w)); try done.
      * eapply Forall_impl; [exact Hf1|]. simpl. intros g [[? _]|?] Hg; simpl in *; lia.
      * eapply Forall_impl; [exact Hc1|]. simpl. intros c [?|?] Hc; simpl in *; lia.
  - eapply (uniform_extend p ev args (set_queue q w)); try done.
    + eapply Forall_impl; [exact Hfx|]. simpl. intros g [[? _]|?] Hg; simpl in *; lia.
    + eapply Forall_impl; [exact Hcx|]. simpl. intros c [?|?] Hc; simpl in *; lia.
Qed.

Lemma uniform_run p ev args fuel : forall w,
  uniform p ev args w -> uniform p ev args (run behave fuel w).
Proof.
  induction fuel as [|fuel IH]; intros w Hu; simpl; [done|].
  destruct (step behave w) as [w'|] eqn:Hs; [|done].
  apply IH. by eapply uniform_step.
Qed.

Lemma emitImpl_uniform ev args w :
  world_ok w ->
  uniform (length (promises w)) ev args (snd (emitImpl behave ev args w)).
Proof.
  intros [Hq Ht].
  assert (uniform (length (promises w)) ev args
            (set_emitted (emitted w ++ [(ev, args)])
               (set_promises (promises w ++ [Pending]) w))) as Hu.
  { split; [simpl; rewrite length_app; simpl; lia|]. simpl. split.
    - eapply Forall_impl; [exact Hq|]. simpl. intros g Hg Hg'. lia.
    - eapply Forall_impl; [exact Ht|]. simpl. intros c Hc Hc'. lia. }
  unfold emitImpl, emit_with. destruct (map_get _ ev) as [l|]; simpl.
  - unfold next_listener.
    match goal with |- context [iterate ?b ?fu ?r ?pp ?e ?a ?g ?s ?i ?x] =>
      destruct (iterate_uniform pp e a g s r i x)
        as (qx' & tx' & Hq' & Ht' & Hf' & Hc'); [apply Hu|];
      destruct (iterate_effect b fu (emit_error_effect b) pp e a g s r i x)
        as (_ & _ & _ & Hl' & _) end.
    by eapply uniform_extend.
  - destruct Hu as (Hp0 & Hq0 & Ht0).
    destruct (inherited ev); (split; [|done]);
      unfold settle; simpl; by rewrite length_insert.
Qed.

(** X18: every listener an emission applies receives the arguments of
    the call of [emit], all of them and the same for each listener, under
    the name of the event. *)
Theorem listeners_get_args ev args w fuel c :
  world_ok w ->
  c ∈ trace (run behave fuel (snd (emitImpl behave ev args w))) ->
  c_promise c = fst (emitImpl behave ev args w) ->
  c_event c = ev /\ c_args c = args.
Proof.
  intros Hok Hin Hp. rewrite emitImpl_promise in Hp.
  destruct (uniform_run _ ev args fuel _ (emitImpl_uniform ev args w Hok))
    as (_ & _ & Ht).
  rewrite Forall_forall in Ht. by apply Ht.
Qed.

End Arguments.

Lemma listeners_get_args_witness :
  c_event (mkCall 3 "x" 1 [VNum 7]) = "x" /\ c_args (mkCall 3 "x" 1 [VNum 7]) = [VNum 7].
Proof.
  apply (listeners_get_args quiet "x" [VNum 7] world_XY 1 (mkCall 3 "x" 1 [VNum 7])
           world_XY_world_ok).
  - apply list_elem_of_In. vm_compute. by left.
  - reflexivity.
Defined.

Section Error_emission.

Variable behave : Listener -> list Value -> Heap -> Outcome * Heap.

Lemma iterate_error_quiet funnel p args event set rest idx w :
  emitted (iterate behave funnel rest p "error" args event set idx w) = emitted w
  /\ exists qx,
       queue (iterate behave funnel rest p "error" args event set idx w)
       = queue w ++ qx
       /\ Forall (fun g => f_name g = "error") qx.
Proof.
  destruct rest as [|e rest]; simpl.
  - split; [done|]. exists []. by rewrite app_nil_r.
  - unfold apply_listener. destruct (behave (fn e) args (heap w)) as [out h'].
    destruct out as [|error|error]; simpl.
    + split; [done|]. eexists [_]. split; [done|]. by repeat constructor.
    + split; [done|]. exists []. by rewrite app_nil_r.
    + split; [done|]. eexists [_]. split; [done|]. by repeat constructor.
Qed.

Lemma resume_error_quiet f w :
  f_name f = "error" ->
  emitted (resume behave f w) = emitted w
  /\ exists qx,
       queue (resume behave f w) = queue w ++ qx
       /\ Forall (fun g => f_name g = "error") qx.
Proof.
  intros Hname. unfold resume, catch. rewrite Hname. simpl.
  destruct (f_pending f) as [|error].
  - unfold after_listener. rewrite Hname.
    destruct (cancel_requested (f_event f) (heap w)).
    + split; [done|]. exists []. by rewrite app_nil_r.
    + apply iterate_error_quiet.
  - split; [done|]. exists []. by rewrite app_nil_r.
Qed.

Lemma run_error_quiet fuel : forall w,
  Forall (fun g => f_name g = "error") (queue w) ->
  emitted (run behave fuel w) = emitted w.
Proof.
  induction fuel as [|fuel IH]; intros w Hq; simpl; [done|].
  unfold step. destruct (queue w) as [|f q] eqn:Hqueue; [done|].
  apply Forall_cons in Hq as [Hf Hq].
  destruct (resume_error_quiet f (set_queue q w) Hf) as (He & qx & Hqx & Hfx).
  rewrite IH, He; [done|]. rewrite Hqx. by apply Forall_app.
Qed.

(** X19: an emission of ["error"] never emits anything itself, whatever
    its listeners do: when they throw or reject no second ["error"] is
    emitted, so that the handling of errors cannot go round in circles. *)
Theorem error_emits_nothing args w fuel :
  queue w = [] ->
  emitted (run behave fuel (snd (emitImpl behave "error" args w)))
  = emitted w ++ [("error", args)].
Proof.
  intros Hempty. unfold emitImpl, emit_with. rewrite inherited_error.
  destruct (map_get _ "error") as [l|]; simpl.
  - unfold next_listener.
    match goal with |- context [iterate ?b ?fu ?r ?p ?e ?a ?g ?s ?i ?x] =>
      destruct (iterate_error_quiet fu p a g s r i x) as (He & qx & Hqx & Hfx) end.
    rewrite run_error_quiet, He; [done|].
    rewrite Hqx. simpl. rewrite Hempty. done.
  - rewrite run_error_quiet; [done|]. simpl. rewrite Hempty. constructor.
Qed.

End Error_emission.

Lemma error_emits_nothing_witness :
  emitted (run throws_first 3
             (snd (emitImpl throws_first "error" [VNum 7]
                     (onImpl throws_first "error" 0 VUndefined initialize))))
  = emitted (onImpl throws_first "error" 0 VUndefined initialize)
    ++ [("error", [VNum 7])].
Proof.
  exact (error_emits_nothing throws_first [VNum 7]
           (onImpl throws_first "error" 0 VUndefined initialize) 3 eq_refl).
Defined.
